(** * DsoMiti: the Drakensang Online migration script (src/main.py)

    A shallow embedding of [main.py] and the verification of its
    specification.

    The script copies a directory tree, deletes a shortcut and deletes the
    old tree, logging every step.  Its state is the file system and the
    console, so the embedding threads an explicit [world] through every
    call.

    - The file system is a finite map from paths to entries.  A path is the
      list of its components below a base directory; the empty path is the
      base itself (the root of an absolute path, the working directory of a
      relative one), which always exists, is a directory, and cannot be
      removed.
    - The library calls the script makes ([Path.exists], [Path.is_dir],
      [Path.mkdir], [Path.unlink], [os.walk], [shutil.copy2],
      [shutil.rmtree]) are modelled after their behaviour on a POSIX
      system.  A call raises exactly when the shape of the tree makes the
      underlying system call fail (missing entry, entry of the wrong kind,
      existing entry), and the exception carries the text Python gives it.
      Permissions, symbolic links, file metadata, transient I/O faults and
      the limits of the system (the length of a path, the depth of the
      interpreter's stack) are outside the model.
    - [os.walk] is a lazy generator: every directory is listed when the walk
      reaches it, after the loop body has run for the directories before it.
      The model interleaves listing and body in the same way.  A copy whose
      destination lies two or more levels below its source feeds the walk
      with the directories it creates and descends without end.  Python
      ends such a run with an exception when a limit of the system is
      reached; the model, which has no such limit, gives the traversal a
      depth budget and yields [None] when it is exhausted, so such a run
      has no outcome in the model, for any budget.  What is proved of every
      outcome says nothing about these runs; the theorems that say which
      exceptions a run can end with assume that the destination is not at
      or below the source, and show that the run then has an outcome.
    - Python exceptions are a second kind of outcome ([Raise]); [try] /
      [except Exception] is [try_except].
    - Strings are ASCII strings; [str.upper] moves a-z to A-Z.

    The file has three parts: the program, the vocabulary of the
    specification with the sample worlds, and the theorems.  The theorems
    follow the program: the logger, the delete operation, the missing
    source, the order of the tasks, exceptions in tasks, the second run,
    the copy of a tree, the preservation of well-formedness, and further
    properties of the operations, the tasks and the migration. *)

From Stdlib Require Import Strings.String Strings.Ascii Strings.Byte.
From stdpp Require Import base option list gmap strings.

Open Scope string_scope.
Open Scope list_scope.

(** ** Python strings *)

Module Str.

(** [str.upper] on one ASCII character: the letters a-z move to A-Z, every
    other character is kept. *)
Definition upper_char (c : ascii) : ascii :=
  let n := nat_of_ascii c in
  if (97 <=? n)%nat && (n <=? 122)%nat then ascii_of_nat (n - 32) else c.

(** [s.upper()] *)
Fixpoint upper (s : string) : string :=
  match s with
  | EmptyString => EmptyString
  | String c s' => String (upper_char c) (upper s')
  end.

(** [repr(s)], which Python uses for the file name in the text of an
    [OSError]. *)
Definition hex_digit (n : nat) : ascii :=
  if (n <? 10)%nat then ascii_of_nat (48 + n) else ascii_of_nat (87 + n).

(** The characters [repr] prints as they are: not the control characters,
    the no-break space or the soft hyphen. *)
Definition printable (n : nat) : bool :=
  (32 <=? n)%nat && negb (n =? 127)%nat
  && negb ((128 <=? n)%nat && (n <=? 160)%nat) && negb (n =? 173)%nat.

(** One character inside the quotes [quote]: the quote and the backslash
    get a backslash, tab, newline and carriage return their letter, any
    other unprintable character its code in hexadecimal. *)
Definition repr_char (quote c : ascii) : string :=
  let n := nat_of_ascii c in
  if bool_decide (c = quote) || (n =? 92)%nat then String "\" (String c "")
  else if (n =? 9)%nat then "\t"
  else if (n =? 10)%nat then "\n"
  else if (n =? 13)%nat then "\r"
  else if printable n then String c ""
  else "\x" +:+ String (hex_digit (n / 16)) (String (hex_digit (n mod 16)) "").

Fixpoint repr_chars (quote : ascii) (s : string) : string :=
  match s with
  | EmptyString => EmptyString
  | String c s' => repr_char quote c +:+ repr_chars quote s'
  end.

Fixpoint has_char (c : ascii) (s : string) : bool :=
  match s with
  | EmptyString => false
  | String c' s' => bool_decide (c' = c) || has_char c s'
  end.

(** Single quotes, or double quotes when [s] has a single quote and no
    double quote. *)
Definition repr (s : string) : string :=
  let quote :=
    if has_char "'" s && negb (has_char (ascii_of_nat 34) s)
    then ascii_of_nat 34 else "'"%char in
  String quote (repr_chars quote s) +:+ String quote "".

End Str.

(** ** pathlib *)

Abbreviation path := (list string).

Module Path.

(** [p.parent]; the parent of the base is the base. *)
Definition parent (p : path) : path := removelast p.

(** [p.name] *)
Definition name (p : path) : string := List.last p "".

(** [p / name] and [p / rel] *)
Definition joinpath (p rel : path) : path := p ++ rel.

(** [p.relative_to(base)]: the components of [p] below [base], or [None]
    (a [ValueError] in Python) when [p] does not start with [base]. *)
Fixpoint relative_to (p base : path) {struct base} : option path :=
  match base with
  | [] => Some p
  | b :: base' =>
      match p with
      | [] => None
      | x :: p' => if decide (x = b) then relative_to p' base' else None
      end
  end.

(** [str(p)] *)
Definition str (p : path) : string :=
  match p with
  | [] => "."
  | _ => String.concat "/" p
  end.

(** [repr(p)], for a path of the POSIX flavour *)
Definition repr (p : path) : string := "PosixPath(" +:+ Str.repr (str p) +:+ ")".

End Path.

(** ** The file system *)

Inductive entry :=
  | EFile (data : list byte)
  | EDir.

Abbreviation FS := (gmap path entry).

Inductive exn :=
  | FileExistsError (p : path)
  | FileNotFoundError (p : path)
  | NotADirectoryError (p : path)
  | IsADirectoryError (p : path)
  | SameFileError (p q : path) (q_is_str : bool)
  | OSError (msg : string) (p : path)
  | ValueError (msg : string).

(** [str(e)] for an exception [e].  An [OSError] of a system call names
    the file by the [repr] of its name as a string.  [shutil.copyfile]
    formats [SameFileError] with the [repr] of its two arguments: the
    source is a [Path]; the destination is a [Path] too, or a string when
    [shutil.copy2] has joined it to a directory. *)
Definition exn_str (e : exn) : string :=
  match e with
  | FileExistsError p => "[Errno 17] File exists: " +:+ Str.repr (Path.str p)
  | FileNotFoundError p =>
      "[Errno 2] No such file or directory: " +:+ Str.repr (Path.str p)
  | NotADirectoryError p => "[Errno 20] Not a directory: " +:+ Str.repr (Path.str p)
  | IsADirectoryError p => "[Errno 21] Is a directory: " +:+ Str.repr (Path.str p)
  | SameFileError p q q_is_str =>
      Path.repr p +:+ " and "
      +:+ (if q_is_str then Str.repr (Path.str q) else Path.repr q)
      +:+ " are the same file"
  | OSError msg p => msg +:+ ": " +:+ Str.repr (Path.str p)
  | ValueError msg => msg
  end.

Inductive outcome (A : Type) :=
  | Ret (a : A)
  | Raise (e : exn).
Arguments Ret {A} a.
Arguments Raise {A} e.

Module Fs.

(** What a [stat] call sees at [p]. *)
Definition stat (fs : FS) (p : path) : option entry :=
  match p with
  | [] => Some EDir
  | _ => fs !! p
  end.

(** [p.exists()] *)
Definition exists_ (fs : FS) (p : path) : bool :=
  match stat fs p with
  | Some _ => true
  | None => false
  end.

(** [p.is_dir()] *)
Definition is_dir (fs : FS) (p : path) : bool :=
  match stat fs p with
  | Some EDir => true
  | _ => false
  end.

(** A regular file stands above [p], on the way down to it. *)
Definition through_file (fs : FS) (p : path) : bool :=
  existsb (λ n, match stat fs (take n p) with Some (EFile _) => true | _ => false end)
          (seq 0 (length p)).

(** What a system call raises for a path that cannot be found: ENOTDIR
    when the path runs through a regular file, ENOENT otherwise. *)
Definition not_found (fs : FS) (p : path) : exn :=
  if through_file fs p then NotADirectoryError p else FileNotFoundError p.

(** [os.mkdir(p)] *)
Definition os_mkdir (fs : FS) (p : path) : outcome unit * FS :=
  match stat fs p with
  | Some _ => (Raise (FileExistsError p), fs)
  | None =>
      match stat fs (Path.parent p) with
      | None => (Raise (not_found fs p), fs)
      | Some (EFile _) => (Raise (NotADirectoryError p), fs)
      | Some EDir => (Ret tt, <[p := EDir]> fs)
      end
  end.

(** [p.mkdir(parents=False, exist_ok=True)]: an [OSError] other than
    [FileNotFoundError] is swallowed when [p] is a directory. *)
Definition mkdir_exist_ok (fs : FS) (p : path) : outcome unit * FS :=
  match os_mkdir fs p with
  | (Raise (FileNotFoundError q), fs') => (Raise (FileNotFoundError q), fs')
  | (Raise e, fs') => if is_dir fs' p then (Ret tt, fs') else (Raise e, fs')
  | r => r
  end.

(** [p.mkdir(parents=True, exist_ok=True)], by recursion on the reversed
    path [rp] ([p = reverse rp], so the tail of [rp] is [p.parent]):
    try [os.mkdir]; on [FileNotFoundError] make the parent first and try
    again; on any other [OSError] succeed iff [p] is a directory. *)
Fixpoint mkdir_parents_rev (rp : list string) (fs : FS) : outcome unit * FS :=
  let p := reverse rp in
  match os_mkdir fs p with
  | (Raise (FileNotFoundError q), fs') =>
      match rp with
      | [] => (Raise (FileNotFoundError q), fs')
      | _ :: rp' =>
          match mkdir_parents_rev rp' fs' with
          | (Ret _, fs'') => mkdir_exist_ok fs'' p
          | r => r
          end
      end
  | (Raise e, fs') => if is_dir fs' p then (Ret tt, fs') else (Raise e, fs')
  | r => r
  end.

Definition mkdir_parents (fs : FS) (p : path) : outcome unit * FS :=
  mkdir_parents_rev (reverse p) fs.

(** [p.unlink(missing_ok=True)]: only [FileNotFoundError] is swallowed. *)
Definition unlink_missing_ok (fs : FS) (p : path) : outcome unit * FS :=
  match stat fs p with
  | None => (if through_file fs p then Raise (NotADirectoryError p) else Ret tt, fs)
  | Some EDir => (Raise (IsADirectoryError p), fs)
  | Some (EFile _) => (Ret tt, delete p fs)
  end.

(** [shutil.rmtree(p)]: every entry at or below [p] goes.  The base
    directory has no entry of its own; removing it fails after its
    contents are gone ([rmdir] of [.] is an invalid argument).  The script
    calls [rmtree] on directories only. *)
Definition rmtree (fs : FS) (p : path) : outcome unit * FS :=
  match stat fs p with
  | None => (Raise (not_found fs p), fs)
  | Some (EFile _) => (Raise (NotADirectoryError p), fs)
  | Some EDir =>
      let fs' := filter (λ kv, ¬ p `prefix_of` kv.1) fs in
      match p with
      | [] => (Raise (OSError "[Errno 22] Invalid argument" p), fs')
      | _ => (Ret tt, fs')
      end
  end.

(** [shutil.copyfile(src, dst)]; [dst_is_str] says that [dst] is passed
    as a string, which shows in the text of [SameFileError] only. *)
Definition copyfile (fs : FS) (src dst : path) (dst_is_str : bool) : outcome unit * FS :=
  if bool_decide (src = dst) && exists_ fs src
  then (Raise (SameFileError src dst dst_is_str), fs)
  else
    match stat fs src with
    | None => (Raise (not_found fs src), fs)
    | Some EDir => (Raise (IsADirectoryError src), fs)
    | Some (EFile data) =>
        match stat fs dst with
        | Some EDir => (Raise (IsADirectoryError dst), fs)
        | Some (EFile _) => (Ret tt, <[dst := EFile data]> fs)
        | None =>
            match stat fs (Path.parent dst) with
            | Some EDir => (Ret tt, <[dst := EFile data]> fs)
            | Some (EFile _) => (Raise (NotADirectoryError dst), fs)
            | None => (Raise (not_found fs dst), fs)
            end
        end
    end.

(** [shutil.copy2(src, dst)]: a destination that is a directory receives the
    file under the source's name ([os.path.join], which gives a string). *)
Definition copy2 (fs : FS) (src dst : path) : outcome unit * FS :=
  if is_dir fs dst then copyfile fs src (Path.joinpath dst [Path.name src]) true
  else copyfile fs src dst false.

(** [os.scandir(top)]: the names and kinds of the entries directly in
    [top]; [None] when [top] cannot be listed. *)
Definition child_of (top : path) (kv : path * entry) : option (string * entry) :=
  match Path.relative_to kv.1 top with
  | Some [n] => Some (n, kv.2)
  | _ => None
  end.

Definition scandir (fs : FS) (top : path) : option (list (string * entry)) :=
  match stat fs top with
  | Some EDir => Some (omap (child_of top) (map_to_list fs))
  | _ => None
  end.

Definition dir_names (ents : list (string * entry)) : list string :=
  omap (λ ne, match ne.2 with EDir => Some ne.1 | EFile _ => None end) ents.

Definition file_names (ents : list (string * entry)) : list string :=
  omap (λ ne, match ne.2 with EFile _ => Some ne.1 | EDir => None end) ents.

(** A well-formed file system: the base has no entry, and every entry sits
    in a directory. *)
Definition wf (fs : FS) : Prop :=
  ∀ p e, fs !! p = Some e → p ≠ [] ∧ is_dir fs (Path.parent p) = true.

(** The length of the longest path with an entry. *)
Definition height (fs : FS) : nat :=
  max_list ((λ kv : path * entry, length kv.1) <$> map_to_list fs).

End Fs.

(** ** The world and the monad of effects *)

(** [disk] is the file system, [stdout] the lines printed so far.  [clock]
    gives the text [datetime.now().strftime(...)] returns at each reading
    and [ticks] counts the readings made. *)
Record world := World {
  disk : FS;
  stdout : list string;
  clock : nat → string;
  ticks : nat
}.

(** A computation runs on a world and either ends, with a value or an
    exception and the world it leaves, or exhausts its budget ([None]). *)
Definition M (A : Type) : Type := world → option (outcome A * world).

#[global] Instance M_ret : MRet M := λ A a w, Some (Ret a, w).

#[global] Instance M_bind : MBind M := λ A B k m w,
  match m w with
  | None => None
  | Some (Ret a, w') => k a w'
  | Some (Raise e, w') => Some (Raise e, w')
  end.

(** [try: m except Exception as e: h e]; every exception of the model is
    an [Exception]. *)
Definition try_except {A} (m : M A) (h : exn → M A) : M A := λ w,
  match m w with
  | Some (Raise e, w') => h e w'
  | r => r
  end.

Definition raise {A} (e : exn) : M A := λ w, Some (Raise e, w).

Definition diverge {A} : M A := λ _, None.

(** A query of the file system. *)
Definition ask {A} (f : FS → A) : M A := λ w, Some (Ret (f (disk w)), w).

(** A file-system call that may change the tree and may raise. *)
Definition sys (f : FS → outcome unit * FS) : M unit := λ w,
  let r := f (disk w) in
  Some (r.1, World r.2 (stdout w) (clock w) (ticks w)).

(** [for x in l: f x] *)
Fixpoint for_each {A} (l : list A) (f : A → M unit) : M unit :=
  match l with
  | [] => mret tt
  | x :: l' => f x ;; for_each l' f
  end.

(** [for root, dirs, files in os.walk(top): body root dirs files], with the
    defaults [topdown=True], [onerror=None]: list [top] (a directory that
    cannot be listed is skipped silently), run the body, then walk each
    listed subdirectory in turn.  [fuel] bounds the depth. *)
Fixpoint os_walk_for (fuel : nat) (top : path)
    (body : path → list string → list string → M unit) : M unit :=
  match fuel with
  | O => diverge
  | S n => λ w,
      match Fs.scandir (disk w) top with
      | None => (mret tt : M unit) w
      | Some ents =>
          ((body top (Fs.dir_names ents) (Fs.file_names ents) ;;
            for_each (Fs.dir_names ents)
              (λ d, os_walk_for n (Path.joinpath top [d]) body)) : M unit) w
      end
  end.

(** ** Logger *)

Module Logger.

Definition log_levels : gmap string string :=
  list_to_map [("INFO", "INF"); ("DEBUG", "DBG"); ("ERROR", "ERR");
               ("CLIENT", "CLT"); ("EXCEPTION", "EXE")].

(** The line [print] writes. *)
Definition format_line (timestamp prefix message : string) : string :=
  "[" +:+ timestamp +:+ "] [" +:+ prefix +:+ "] - " +:+ message.

Definition _get_current_time : M string := λ w,
  Some (Ret (clock w (ticks w)), World (disk w) (stdout w) (clock w) (S (ticks w))).

Definition print (line : string) : M unit := λ w,
  Some (Ret tt, World (disk w) (stdout w ++ [line]) (clock w) (ticks w)).

Definition log (level message : string) : M unit :=
  let prefix := default "LOG" (log_levels !! Str.upper level) in
  timestamp ← _get_current_time;
  print (format_line timestamp prefix message).

Definition error (msg : string) : M unit := log "ERROR" msg.
Definition client (msg : string) : M unit := log "CLIENT" msg.
Definition debug (msg : string) : M unit := log "DEBUG" msg.
Definition info (msg : string) : M unit := log "INFO" msg.
Definition exception (msg : string) : M unit := log "EXCEPTION" msg.

End Logger.

(** ** Operations *)

Module CopyOperation.

Record t := mk { src : path; dst : path }.

(** The body of the inner loop: copy one file, log a failure. *)
Definition copy_file (root dest_dir : path) (file : string) : M unit :=
  let src_file := Path.joinpath root [file] in
  let dest_file := Path.joinpath dest_dir [file] in
  try_except
    (sys (λ fs, Fs.copy2 fs src_file dest_file))
    (λ e, Logger.error
            ("Failed to copy '" +:+ Path.str src_file +:+ "': " +:+ exn_str e)).

(** The body of the loop over [os.walk(self.src)]. *)
Definition visit (self : t) (root : path) (_dirs files : list string) : M unit :=
  match Path.relative_to root (src self) with
  | None => raise (ValueError "path is not in the subpath of the source")
  | Some rel_path =>
      let dest_dir := Path.joinpath (dst self) rel_path in
      sys (λ fs, Fs.mkdir_parents fs dest_dir) ;;
      for_each files (copy_file root dest_dir)
  end.

Definition execute (fuel : nat) (self : t) : M unit :=
  found ← ask (λ fs, Fs.exists_ fs (src self));
  if negb found then
    Logger.error ("Source path not found: " +:+ Path.str (src self))
  else
    sys (λ fs, Fs.mkdir_parents fs (dst self)) ;;
    os_walk_for fuel (src self) (visit self) ;;
    Logger.info "Copy operation completed successfully.".

End CopyOperation.

Module DeleteOperation.

Record t := mk { target : path; recursive : bool }.

(** The dataclass constructor: [recursive] defaults to [True]. *)
Definition new (target : path) (recursive : option bool) : t :=
  mk target (default true recursive).

Definition execute (self : t) : M unit :=
  found ← ask (λ fs, Fs.exists_ fs (target self));
  if negb found then
    Logger.info ("Target not found, skipping: " +:+ Path.str (target self))
  else
    try_except
      (is_dir ← ask (λ fs, Fs.is_dir fs (target self));
       if is_dir && recursive self then
         sys (λ fs, Fs.rmtree fs (target self)) ;;
         Logger.info ("Deleted directory: " +:+ Path.str (target self))
       else
         sys (λ fs, Fs.unlink_missing_ok fs (target self)) ;;
         Logger.info ("Deleted file: " +:+ Path.str (target self)))
      (λ e, Logger.error
              ("Failed to delete '" +:+ Path.str (target self) +:+ "': " +:+ exn_str e)).

End DeleteOperation.

(** The abstract class [Operation] has exactly these two subclasses;
    [execute] dispatches on the variant. *)
Inductive Operation :=
  | Copy (op : CopyOperation.t)
  | Delete (op : DeleteOperation.t).

Definition Operation_execute (fuel : nat) (op : Operation) : M unit :=
  match op with
  | Copy c => CopyOperation.execute fuel c
  | Delete d => DeleteOperation.execute d
  end.

(** ** Tasks and the migrator *)

Module MigrationTask.

Record t := mk { name : string; operations : list Operation }.

Definition run (fuel : nat) (self : t) : M unit :=
  Logger.info ("Starting task: " +:+ name self) ;;
  for_each (operations self) (Operation_execute fuel) ;;
  Logger.info ("Completed task: " +:+ name self).

End MigrationTask.

Module DrakensangMigrator.

Record t := mk { source : path; destination : path; shortcut : option path }.

(** The list literal [tasks], with [None] where the shortcut is absent
    ([if self.shortcut]: a [Path] is always true, so the test is on
    [None]). *)
Definition tasks (self : t) : list (option MigrationTask.t) :=
  [ Some (MigrationTask.mk "Copy Game Files"
            [Copy (CopyOperation.mk (source self) (destination self))]);
    match shortcut self with
    | Some s =>
        Some (MigrationTask.mk "Delete Shortcut"
                [Delete (DeleteOperation.new s (Some false))])
    | None => None
    end;
    Some (MigrationTask.mk "Remove Old Installation"
            [Delete (DeleteOperation.new (source self) (Some true))]) ].

(** [filter(None, tasks)] *)
Definition filter_None {A} (l : list (option A)) : list A := omap id l.

(** The second [if] of [perform_migration]: a missing parent of the
    destination is created. *)
Definition ensure_destination_parent (self : t) : M unit :=
  parent_found ← ask (λ fs, Fs.exists_ fs (Path.parent (destination self)));
  if negb parent_found then
    Logger.info ("Destination parent missing, creating: "
                 +:+ Path.str (Path.parent (destination self))) ;;
    sys (λ fs, Fs.mkdir_parents fs (Path.parent (destination self)))
  else mret tt.

Definition perform_migration (fuel : nat) (self : t) : M unit :=
  Logger.info "Migration process initiated." ;;
  found ← ask (λ fs, Fs.exists_ fs (source self));
  if negb found then
    Logger.error ("Source directory not found: " +:+ Path.str (source self))
  else
    ensure_destination_parent self ;;
    for_each (filter_None (tasks self)) (MigrationTask.run fuel) ;;
    Logger.info "All migration tasks completed successfully.".

End DrakensangMigrator.

(** The guarded call in [main]: an exception that escapes the migration is
    logged once and the process ends normally.  (Keyboard interrupts, the
    banner and the resolution of the three paths are not modelled.) *)
Definition main_migrate (fuel : nat) (migrator : DrakensangMigrator.t) : M unit :=
  try_except
    (DrakensangMigrator.perform_migration fuel migrator)
    (λ e, Logger.exception ("Unexpected error occurred: " +:+ exn_str e)).

(** * Specification vocabulary *)

(** The world after one more line with severity code [prefix] has been
    logged: the file system is as before, one line is appended, one
    reading of the clock is consumed. *)
Definition logged (w : world) (prefix message : string) : world :=
  World (disk w)
        (stdout w ++ [Logger.format_line (clock w (ticks w)) prefix message])
        (clock w) (S (ticks w)).

(** The world with another file system and the same console. *)
Definition with_disk (w : world) (fs : FS) : world :=
  World fs (stdout w) (clock w) (ticks w).

(** Both entries are directories, or both are files. *)
Definition same_kind (e1 e2 : entry) : Prop :=
  match e1, e2 with
  | EDir, EDir => True
  | EFile _, EFile _ => True
  | _, _ => False
  end.

(** No entry on the way down to [p] (or at [p]) is a file, so [p] can be
    made a directory. *)
Definition no_file_on_path (fs : FS) (p : path) : Prop :=
  ∀ q data, q `prefix_of` p → fs !! q ≠ Some (EFile data).

(** Whatever already exists below [dst] has the kind of the entry with the
    same relative path below [src]. *)
Definition compatible (fs : FS) (src dst : path) : Prop :=
  ∀ r e e', fs !! (src ++ r) = Some e → fs !! (dst ++ r) = Some e' → same_kind e e'.

(** [fs'] is [fs] without exactly one entry. *)
Definition removes_one_entry (fs fs' : FS) : Prop :=
  ∃ p, is_Some (fs !! p) ∧ fs' = delete p fs.

(** [fs'] is [fs] without the entries at or below [p]. *)
Definition removes_subtree (p : path) (fs fs' : FS) : Prop :=
  ∀ q, fs' !! q = if decide (p `prefix_of` q) then None else fs !! q.

(** The directory [p] and all of its contents are removed: the entries at
    or below [p] are gone, and [p] itself no longer exists. *)
Definition removes_tree (p : path) (fs fs' : FS) : Prop :=
  removes_subtree p fs fs' ∧ Fs.exists_ fs' p = false.

(** The three tasks of a migration. *)
Definition copy_task (m : DrakensangMigrator.t) : MigrationTask.t :=
  MigrationTask.mk "Copy Game Files"
    [Copy (CopyOperation.mk (DrakensangMigrator.source m) (DrakensangMigrator.destination m))].

Definition shortcut_task (s : path) : MigrationTask.t :=
  MigrationTask.mk "Delete Shortcut" [Delete (DeleteOperation.mk s false)].

Definition remove_task (m : DrakensangMigrator.t) : MigrationTask.t :=
  MigrationTask.mk "Remove Old Installation"
    [Delete (DeleteOperation.mk (DrakensangMigrator.source m) true)].

(** The invariant of the copy loop, from the tree [fs0] at the start to
    the tree [fs] now: the source tree is untouched, and whatever stands
    below the destination was there before or is the copy of the source
    entry with the same relative path. *)
Definition copy_inv (src dst : path) (fs0 fs : FS) : Prop :=
  (∀ r, fs !! (src ++ r) = fs0 !! (src ++ r)) ∧
  (∀ r e', r ≠ [] → fs !! (dst ++ r) = Some e' →
     fs0 !! (dst ++ r) = Some e' ∨ fs0 !! (src ++ r) = Some e').


(** Boolean checks of the hypotheses on a concrete file system. *)
Definition wfb (fs : FS) : bool :=
  forallb (λ kv : path * entry,
             match kv.1 with
             | [] => false
             | _ => Fs.is_dir fs (Path.parent kv.1)
             end) (map_to_list fs).

Definition no_file_on_pathb (fs : FS) (p : path) : bool :=
  forallb (λ kv : path * entry,
             match kv.2 with
             | EFile _ => negb (bool_decide (kv.1 `prefix_of` p))
             | EDir => true
             end) (map_to_list fs).

Definition compatibleb (fs : FS) (src dst : path) : bool :=
  forallb (λ kv : path * entry,
             match Path.relative_to kv.1 src with
             | Some r =>
                 match kv.2, fs !! (dst ++ r) with
                 | EDir, Some (EFile _) | EFile _, Some EDir => false
                 | _, _ => true
                 end
             | None => true
             end) (map_to_list fs).

(** A computation that leaves a well-formed file system well formed,
    however it ends. *)
Definition keeps_wf {A} (m : M A) : Prop :=
  ∀ w r w', Fs.wf (disk w) → m w = Some (r, w') → Fs.wf (disk w').

(** ** Relations between the worlds before and after a run *)

(** [m] relates every world it starts in to the world it leaves it in,
    whether it returns or raises. *)
Definition steps {A} (R : world → world → Prop) (m : M A) : Prop :=
  ∀ w r w', m w = Some (r, w') → R w w'.

(** A relation between file systems, read on worlds. *)
Definition on_disk (D : FS → FS → Prop) (w w' : world) : Prop :=
  D (disk w) (disk w').

(** Nothing is removed: every entry is still there, with its kind. *)
Definition grows (fs fs' : FS) : Prop :=
  ∀ q e, fs !! q = Some e → ∃ e', fs' !! q = Some e' ∧ same_kind e e'.

(** Nothing is created or rewritten: every entry was there before. *)
Definition shrinks (fs fs' : FS) : Prop :=
  ∀ q e, fs' !! q = Some e → fs !! q = Some e.

(** No file is created or rewritten: every file was there before, with
    the same contents. *)
Definition no_new_file (fs fs' : FS) : Prop :=
  ∀ q data, fs' !! q = Some (EFile data) → fs !! q = Some (EFile data).

(** Only paths in [P] may differ. *)
Definition same_outside (P : path → Prop) (fs fs' : FS) : Prop :=
  ∀ q, ¬ P q → fs' !! q = fs !! q.

(** Every directory stays a directory. *)
Definition keeps_dirs (fs fs' : FS) : Prop :=
  ∀ q, fs !! q = Some EDir → fs' !! q = Some EDir.

(** The console only gains lines, one reading of the clock for each, and
    the clock itself is not touched. *)
Definition console_extends (w w' : world) : Prop :=
  ∃ lines, stdout w' = stdout w ++ lines ∧
           ticks w' = ticks w + length lines ∧
           clock w' = clock w.

(** The paths a migration may touch: the source tree, the destination
    tree, the directories leading to the destination, and the shortcut. *)
Definition migration_region (m : DrakensangMigrator.t) (q : path) : Prop :=
  DrakensangMigrator.source m `prefix_of` q ∨
  DrakensangMigrator.destination m `prefix_of` q ∨
  q `prefix_of` DrakensangMigrator.destination m ∨
  DrakensangMigrator.shortcut m = Some q.

(** The exceptions [Path.mkdir] can raise. *)
Definition mkdir_error (e : exn) : Prop :=
  match e with
  | FileExistsError _ | FileNotFoundError _ | NotADirectoryError _ => True
  | _ => False
  end.

(** [m] raises only exceptions in [P]. *)
Definition raises_only {A} (P : exn → Prop) (m : M A) : Prop :=
  ∀ w e w', m w = Some (Raise e, w') → P e.

(** The directory at [s] stays a directory. *)
Definition stays_dir (s : path) (fs fs' : FS) : Prop :=
  fs !! s = Some EDir → fs' !! s = Some EDir.

(** No entry at or below [src] is more than [H] components deep. *)
Definition bounded_below (src : path) (H : nat) (fs : FS) : Prop :=
  ∀ q e, fs !! q = Some e → src `prefix_of` q → (length q ≤ H)%nat.

(** ** Sample worlds *)

Definition sample_clock : nat → string := λ _, "12:00:00".

(** The scenario of the specification: [tmp/src] holds [a.txt] and
    [sub/b.txt], [tmp/dst] does not exist, [tmp/shortcut.lnk] is a file. *)
Definition scenario_fs : FS :=
  list_to_map
    [ (["tmp"], EDir);
      (["tmp"; "src"], EDir);
      (["tmp"; "src"; "a.txt"], EFile [x68; x69]);
      (["tmp"; "src"; "sub"], EDir);
      (["tmp"; "src"; "sub"; "b.txt"], EFile [x62]);
      (["tmp"; "shortcut.lnk"], EFile [x4c]) ].

Definition scenario_world : world := World scenario_fs [] sample_clock 0.

Definition scenario_migrator : DrakensangMigrator.t :=
  DrakensangMigrator.mk ["tmp"; "src"] ["tmp"; "dst"] (Some ["tmp"; "shortcut.lnk"]).

(** A world with one empty directory [d] and one file [f]. *)
Definition small_world : world :=
  World (list_to_map [ (["d"], EDir); (["f"], EFile [x61]) ]) [] sample_clock 0.

(** A world where the destination [d] of a copy is an existing file. *)
Definition blocked_world : world :=
  World (list_to_map [ (["s"], EDir); (["s"; "a.txt"], EFile [x61]); (["d"], EFile [x62]) ])
        [] sample_clock 0.

(** An empty world, for a migration whose source is the base directory. *)
Definition empty_world : world := World ∅ [] sample_clock 0.

(** The scenario after one migration. *)
Definition scenario_after : world :=
  World
    (list_to_map
       [ (["tmp"], EDir);
         (["tmp"; "dst"], EDir);
         (["tmp"; "dst"; "a.txt"], EFile [x68; x69]);
         (["tmp"; "dst"; "sub"], EDir);
         (["tmp"; "dst"; "sub"; "b.txt"], EFile [x62]) ])
    [ "[12:00:00] [INF] - Migration process initiated.";
      "[12:00:00] [INF] - Starting task: Copy Game Files";
      "[12:00:00] [INF] - Copy operation completed successfully.";
      "[12:00:00] [INF] - Completed task: Copy Game Files";
      "[12:00:00] [INF] - Starting task: Delete Shortcut";
      "[12:00:00] [INF] - Deleted file: tmp/shortcut.lnk";
      "[12:00:00] [INF] - Completed task: Delete Shortcut";
      "[12:00:00] [INF] - Starting task: Remove Old Installation";
      "[12:00:00] [INF] - Deleted directory: tmp/src";
      "[12:00:00] [INF] - Completed task: Remove Old Installation";
      "[12:00:00] [INF] - All migration tasks completed successfully." ]
    sample_clock 11.

(** The empty world after a migration of the base directory to [x]. *)
Definition base_after : world :=
  World ∅
    [ "[12:00:00] [INF] - Migration process initiated.";
      "[12:00:00] [INF] - Starting task: Copy Game Files";
      "[12:00:00] [INF] - Copy operation completed successfully.";
      "[12:00:00] [INF] - Completed task: Copy Game Files";
      "[12:00:00] [INF] - Starting task: Remove Old Installation";
      "[12:00:00] [ERR] - Failed to delete '.': [Errno 22] Invalid argument: '.'";
      "[12:00:00] [INF] - Completed task: Remove Old Installation";
      "[12:00:00] [INF] - All migration tasks completed successfully." ]
    sample_clock 8.

(** A world where the destination already has a directory [a], the name
    of a file of the source, and the world after the copy. *)
Definition clash_world : world :=
  World (list_to_map [ (["s"], EDir); (["s"; "a"], EFile [x61]);
                       (["d"], EDir); (["d"; "a"], EDir) ])
        [] sample_clock 0.

Definition clash_after : world :=
  World (list_to_map [ (["s"], EDir); (["s"; "a"], EFile [x61]);
                       (["d"], EDir); (["d"; "a"], EDir);
                       (["d"; "a"; "a"], EFile [x61]) ])
        [ "[12:00:00] [INF] - Copy operation completed successfully." ]
        sample_clock 1.

(** The scenario after a recursive delete of [tmp/src], and the small
    world after the delete of its file. *)
Definition scenario_source_deleted : world :=
  logged (with_disk scenario_world
            (filter (λ kv : path * entry, ¬ ["tmp"; "src"] `prefix_of` kv.1)
               (disk scenario_world)))
         "INF" "Deleted directory: tmp/src".

Definition small_file_deleted : world :=
  logged (with_disk small_world (delete ["f"] (disk small_world)))
         "INF" "Deleted file: f".

(** The small world and the scenario after a recursive delete of the base
    directory: the contents are gone, the failure is logged. *)
Definition small_base_deleted : world :=
  World ∅
        [ "[12:00:00] [ERR] - Failed to delete '.': [Errno 22] Invalid argument: '.'" ]
        sample_clock 1.

Definition scenario_base_deleted : world :=
  World ∅
        [ "[12:00:00] [ERR] - Failed to delete '.': [Errno 22] Invalid argument: '.'" ]
        sample_clock 1.


(** The blocked world when the migration raises: two lines are out. *)
Definition blocked_at_raise : world :=
  World (disk blocked_world)
        [ "[12:00:00] [INF] - Migration process initiated.";
          "[12:00:00] [INF] - Starting task: Copy Game Files" ]
        sample_clock 2.

(** The small world after the task that deletes its file [f]. *)
Definition small_file_deleted_task : world :=
  World (delete ["f"] (disk small_world))
        [ "[12:00:00] [INF] - Starting task: Delete Shortcut";
          "[12:00:00] [INF] - Deleted file: f";
          "[12:00:00] [INF] - Completed task: Delete Shortcut" ]
        sample_clock 3.

(** The scenario after the parent of the destination [tmp/new/game] has
    been made. *)
Definition scenario_parent_made : world :=
  World (<[ ["tmp"; "new"] := EDir ]> scenario_fs)
        [ "[12:00:00] [INF] - Destination parent missing, creating: tmp/new" ]
        sample_clock 1.

(** A world whose shortcut [menu] is a folder with a link inside, and the
    world after the migration from [old] to [new]. *)
Definition folder_shortcut_world : world :=
  World (list_to_map [ (["old"], EDir); (["old"; "game.exe"], EFile [x4d; x5a]);
                       (["menu"], EDir); (["menu"; "game.lnk"], EFile [x4c]) ])
        [] sample_clock 0.

Definition folder_shortcut_after : world :=
  World (list_to_map [ (["new"], EDir); (["new"; "game.exe"], EFile [x4d; x5a]);
                       (["menu"], EDir); (["menu"; "game.lnk"], EFile [x4c]) ])
        [ "[12:00:00] [INF] - Migration process initiated.";
          "[12:00:00] [INF] - Starting task: Copy Game Files";
          "[12:00:00] [INF] - Copy operation completed successfully.";
          "[12:00:00] [INF] - Completed task: Copy Game Files";
          "[12:00:00] [INF] - Starting task: Delete Shortcut";
          "[12:00:00] [ERR] - Failed to delete 'menu': [Errno 21] Is a directory: 'menu'";
          "[12:00:00] [INF] - Completed task: Delete Shortcut";
          "[12:00:00] [INF] - Starting task: Remove Old Installation";
          "[12:00:00] [INF] - Deleted directory: old";
          "[12:00:00] [INF] - Completed task: Remove Old Installation";
          "[12:00:00] [INF] - All migration tasks completed successfully." ]
        sample_clock 11.

(** * The monad *)

Section monad_laws.
Context {A B : Type}.
Implicit Types (m : M A) (k : A → M B) (w : world).

Lemma bind_Ret m k w a w' :
  m w = Some (Ret a, w') → (m ≫= k) w = k a w'.
Proof. intros H. unfold mbind, M_bind. by rewrite H. Qed.

Lemma bind_Raise m k w e w' :
  m w = Some (Raise e, w') → (m ≫= k) w = Some (Raise e, w').
Proof. intros H. unfold mbind, M_bind. by rewrite H. Qed.

Lemma bind_None m k w : m w = None → (m ≫= k) w = None.
Proof. intros H. unfold mbind, M_bind. by rewrite H. Qed.

(** A sequence that returns went through a return of its first part. *)
Lemma bind_Ret_inv m k w b w2 :
  (m ≫= k) w = Some (Ret b, w2) →
  ∃ a w1, m w = Some (Ret a, w1) ∧ k a w1 = Some (Ret b, w2).
Proof.
  unfold mbind, M_bind. destruct (m w) as [[[a|e] w1]|]; [eauto|done..].
Qed.

End monad_laws.

Lemma for_each_cons {A} (x : A) l (f : A → M unit) :
  for_each (x :: l) f = (f x ;; for_each l f).
Proof. reflexivity. Qed.

(** * Logger *)

Lemma upper_char_idem c : Str.upper_char (Str.upper_char c) = Str.upper_char c.
Proof. by destruct c as [[] [] [] [] [] [] [] []]. Qed.

Lemma upper_idem s : Str.upper (Str.upper s) = Str.upper s.
Proof. induction s as [|c s IH]; simpl; [done|]. by rewrite upper_char_idem, IH. Qed.

Lemma log_spec level message w :
  Logger.log level message w
  = Some (Ret tt, logged w (default "LOG" (Logger.log_levels !! Str.upper level)) message).
Proof. reflexivity. Qed.

Lemma error_spec msg w : Logger.error msg w = Some (Ret tt, logged w "ERR" msg).
Proof. reflexivity. Qed.

Lemma info_spec msg w : Logger.info msg w = Some (Ret tt, logged w "INF" msg).
Proof. reflexivity. Qed.


(** C9.  The severity argument of [Logger.log] is case-insensitive: at the
    same reading of the clock, [log(s, m)] and [log(s.upper(), m)] print the
    same line, because the code is looked up under [s.upper()], and
    upper-casing twice changes nothing. *)
Theorem log_case_insensitive (s m : string) (w : world) :
  Logger.log s m w = Logger.log (Str.upper s) m w.
Proof. rewrite !log_spec. by rewrite upper_idem. Qed.

(** Mixed case reaches the same code as upper case. *)
Example log_error_mixed_case w : Logger.log "eRRor" "x" w = Logger.error "x" w.
Proof. reflexivity. Qed.

(** An unknown severity falls back to the code LOG. *)
Example log_unknown_level w : Logger.log "trace" "x" w = Some (Ret tt, logged w "LOG" "x").
Proof. reflexivity. Qed.

(** * The file-system calls *)

Lemma exists_false_stat fs p : Fs.exists_ fs p = false → Fs.stat fs p = None.
Proof. unfold Fs.exists_. by destruct (Fs.stat fs p). Qed.

Lemma exists_true_stat fs p : Fs.exists_ fs p = true → is_Some (Fs.stat fs p).
Proof. unfold Fs.exists_. destruct (Fs.stat fs p); [eauto|done]. Qed.

Lemma is_dir_stat fs p : Fs.is_dir fs p = true ↔ Fs.stat fs p = Some EDir.
Proof. unfold Fs.is_dir. destruct (Fs.stat fs p) as [[]|]; naive_solver. Qed.

Lemma is_dir_exists fs p : Fs.is_dir fs p = true → Fs.exists_ fs p = true.
Proof. rewrite is_dir_stat. unfold Fs.exists_. by intros ->. Qed.

Lemma stat_lookup fs p : p ≠ [] → Fs.stat fs p = fs !! p.
Proof. by destruct p. Qed.

(** An existing path that is not a directory is a file with an entry. *)
Lemma not_dir_file fs p :
  Fs.exists_ fs p = true → Fs.is_dir fs p = false →
  ∃ data, fs !! p = Some (EFile data) ∧ Fs.stat fs p = Some (EFile data).
Proof.
  unfold Fs.exists_, Fs.is_dir. destruct p as [|x p]; simpl; [done|].
  destruct (fs !! (x :: p)) as [[data|]|]; naive_solver.
Qed.

Lemma rmtree_removes_subtree fs p :
  removes_subtree p fs (filter (λ kv : path * entry, ¬ p `prefix_of` kv.1) fs).
Proof.
  intros q. rewrite map_lookup_filter. destruct (fs !! q) as [e|] eqn:Hq; simpl.
  - case_guard; case_decide; naive_solver.
  - by case_decide.
Qed.

(** Below a target other than the base, the target itself is gone. *)
Lemma rmtree_removes_tree fs p :
  p ≠ [] → removes_tree p fs (filter (λ kv : path * entry, ¬ p `prefix_of` kv.1) fs).
Proof.
  intros Hne. split; [apply rmtree_removes_subtree|].
  unfold Fs.exists_. rewrite stat_lookup by done.
  rewrite (rmtree_removes_subtree fs p p). by rewrite decide_True.
Qed.

(** Everything is below the base. *)
Lemma filter_below_base (fs : FS) :
  filter (λ kv : path * entry, ¬ [] `prefix_of` kv.1) fs = ∅.
Proof.
  apply map_eq. intros q. rewrite (rmtree_removes_subtree fs [] q), lookup_empty.
  rewrite decide_True; [done|apply prefix_nil].
Qed.

Lemma not_removes_one_entry_same (fs : FS) : ¬ removes_one_entry fs fs.
Proof.
  intros (p & [e He] & Heq).
  assert (fs !! p = None) as Hn by (rewrite Heq; apply lookup_delete_eq).
  congruence.
Qed.

(** * DeleteOperation *)

Section delete.
Implicit Types (d : DeleteOperation.t) (w : world).
Import DeleteOperation.

Lemma delete_missing d w :
  Fs.exists_ (disk w) (target d) = false →
  execute d w
  = Some (Ret tt, logged w "INF" ("Target not found, skipping: " +:+ Path.str (target d))).
Proof. intros H. unfold execute, ask, mbind, M_bind. simpl. by rewrite H. Qed.

Lemma delete_file d w :
  Fs.exists_ (disk w) (target d) = true → Fs.is_dir (disk w) (target d) = false →
  execute d w
  = Some (Ret tt, logged (with_disk w (delete (target d) (disk w))) "INF"
                         ("Deleted file: " +:+ Path.str (target d))).
Proof.
  intros Hex Hdir. destruct (not_dir_file _ _ Hex Hdir) as (data & _ & Hst).
  unfold execute, ask, sys, try_except, mbind, M_bind, Fs.unlink_missing_ok.
  simpl. rewrite Hex. simpl. rewrite Hdir. simpl.
  by rewrite Hst.
Qed.

Lemma delete_directory_not_recursive d w :
  Fs.is_dir (disk w) (target d) = true → recursive d = false →
  execute d w
  = Some (Ret tt, logged w "ERR"
            ("Failed to delete '" +:+ Path.str (target d) +:+ "': "
             +:+ exn_str (IsADirectoryError (target d)))).
Proof.
  intros Hdir Hrec. pose proof (is_dir_exists _ _ Hdir) as Hex.
  apply is_dir_stat in Hdir as Hst.
  unfold execute, ask, sys, try_except, mbind, M_bind, Fs.unlink_missing_ok.
  simpl. rewrite Hex. simpl. rewrite Hdir, Hrec. simpl.
  rewrite Hst. by destruct w.
Qed.

Lemma delete_directory_recursive d w :
  Fs.is_dir (disk w) (target d) = true → recursive d = true → target d ≠ [] →
  execute d w
  = Some (Ret tt,
          logged (with_disk w (filter (λ kv : path * entry, ¬ target d `prefix_of` kv.1) (disk w)))
                 "INF" ("Deleted directory: " +:+ Path.str (target d))).
Proof.
  intros Hdir Hrec Hne. pose proof (is_dir_exists _ _ Hdir) as Hex.
  apply is_dir_stat in Hdir as Hst.
  unfold execute, ask, sys, try_except, mbind, M_bind, Fs.rmtree.
  simpl. rewrite Hex. simpl. rewrite Hdir, Hrec. simpl.
  rewrite Hst. by destruct (target d).
Qed.

(** The base directory: its contents go, the directory stays, and the
    failure to remove it is logged. *)
Lemma delete_base_recursive d w :
  target d = [] → recursive d = true →
  execute d w
  = Some (Ret tt,
          logged (with_disk w (filter (λ kv : path * entry, ¬ [] `prefix_of` kv.1) (disk w)))
                 "ERR" ("Failed to delete '" +:+ Path.str [] +:+ "': "
                        +:+ exn_str (OSError "[Errno 22] Invalid argument" []))).
Proof.
  intros Ht Hrec.
  unfold execute, ask, sys, try_except, mbind, M_bind, Fs.rmtree.
  simpl. by rewrite Ht, Hrec.
Qed.

(** [DeleteOperation.execute] always returns: it neither raises nor runs
    forever. *)
Lemma delete_returns d w : ∃ w', execute d w = Some (Ret tt, w').
Proof.
  destruct (Fs.exists_ (disk w) (target d)) eqn:Hex.
  - destruct (Fs.is_dir (disk w) (target d)) eqn:Hdir.
    + destruct (recursive d) eqn:Hrec.
      * destruct (decide (target d = [])) as [Hnil|Hne].
        -- rewrite delete_base_recursive by done. eauto.
        -- rewrite delete_directory_recursive by done. eauto.
      * rewrite delete_directory_not_recursive by done. eauto.
    + rewrite delete_file by done. eauto.
  - rewrite delete_missing by done. eauto.
Qed.

End delete.

Section delete_claims.
Import DeleteOperation.

(** C6.  On a target that does not exist, [DeleteOperation.execute] returns
    normally, leaves the file system as it was, and prints exactly one
    line, with the informational code INF (not ERR). *)
Theorem delete_missing_target (d : DeleteOperation.t) (w : world) :
  Fs.exists_ (disk w) (target d) = false →
  ∃ w', execute d w = Some (Ret tt, w') ∧
        disk w' = disk w ∧
        stdout w' = stdout w ++
          [Logger.format_line (clock w (ticks w)) "INF"
             ("Target not found, skipping: " +:+ Path.str (target d))].
Proof. intros H. rewrite delete_missing by done. eauto. Qed.

Lemma delete_missing_target_witness :
  Fs.exists_ (disk small_world) ["nowhere"] = false ∧
  ∃ w', execute (mk ["nowhere"] true) small_world = Some (Ret tt, w') ∧
        disk w' = disk small_world ∧
        stdout w' = ["[12:00:00] [INF] - Target not found, skipping: nowhere"].
Proof.
  split; [reflexivity|].
  apply (delete_missing_target (mk ["nowhere"] true) small_world). reflexivity.
Defined.

(** C10.  A [DeleteOperation] built from a target alone has
    [recursive = True], and on a directory other than the base directory
    it removes the entire subtree: every entry at or below the target is
    gone, the target itself no longer exists, nothing else changes, and
    the deletion is logged. *)
Theorem delete_default_recursive (p : path) (w : world) :
  Fs.is_dir (disk w) p = true → p ≠ [] →
  recursive (new p None) = true ∧
  ∃ w', execute (new p None) w = Some (Ret tt, w') ∧
        removes_tree p (disk w) (disk w') ∧
        stdout w' = stdout w ++
          [Logger.format_line (clock w (ticks w)) "INF"
             ("Deleted directory: " +:+ Path.str p)].
Proof.
  intros Hdir Hne. split; [done|].
  rewrite delete_directory_recursive by done.
  eexists; split; [done|]. split; [|done]. by apply rmtree_removes_tree.
Qed.

Lemma delete_default_recursive_witness :
  recursive (new ["tmp"; "src"] None) = true ∧
  ∃ w', execute (new ["tmp"; "src"] None) scenario_world = Some (Ret tt, w') ∧
        removes_tree ["tmp"; "src"] (disk scenario_world) (disk w') ∧
        stdout w' = ["[12:00:00] [INF] - Deleted directory: tmp/src"].
Proof.
  apply (delete_default_recursive ["tmp"; "src"] scenario_world); [reflexivity|discriminate].
Defined.

(** C10 as stated fails on the base directory, which is a directory: the
    default delete empties it, but [rmtree] cannot remove the directory
    itself, so the target still exists and an error is logged. *)
Lemma delete_default_keeps_base_directory :
  Fs.is_dir (disk scenario_world) [] = true ∧
  execute (new [] None) scenario_world = Some (Ret tt, scenario_base_deleted) ∧
  ¬ removes_tree [] (disk scenario_world) (disk scenario_base_deleted).
Proof.
  split; [reflexivity|]. split; [vm_compute; reflexivity|].
  by intros [_ H].
Qed.

(** The sample tree after the default delete of [tmp/src]. *)
Example delete_default_scenario :
  execute (new ["tmp"; "src"] None) scenario_world
  = Some (Ret tt,
          World (list_to_map [ (["tmp"], EDir); (["tmp"; "shortcut.lnk"], EFile [x4c]) ])
                [ "[12:00:00] [INF] - Deleted directory: tmp/src" ]
                sample_clock 1).
Proof. vm_compute. reflexivity. Qed.

(** C3, as the code has it.  On an existing target [execute] returns and
    - a directory other than the base, with [recursive = True], is removed
      with all of its contents (nothing else changes), and the deletion is
      logged;
    - the base directory, with [recursive = True], loses its contents but
      stays, and the failure of [rmtree] is logged as an error;
    - a file, with either flag, loses exactly its own entry, and the
      deletion is logged;
    - a directory with [recursive = False] is left in place: [unlink]
      raises, the file system is unchanged and one ERR line is printed. *)
Theorem delete_existing_target (d : DeleteOperation.t) (w : world) :
  Fs.exists_ (disk w) (target d) = true →
  ∃ w', execute d w = Some (Ret tt, w') ∧
    (Fs.is_dir (disk w) (target d) = true → recursive d = true → target d ≠ [] →
       removes_tree (target d) (disk w) (disk w') ∧
       stdout w' = stdout w ++
         [Logger.format_line (clock w (ticks w)) "INF"
            ("Deleted directory: " +:+ Path.str (target d))]) ∧
    (recursive d = true → target d = [] →
       disk w' = ∅ ∧ Fs.is_dir (disk w') (target d) = true ∧
       stdout w' = stdout w ++
         [Logger.format_line (clock w (ticks w)) "ERR"
            ("Failed to delete '" +:+ Path.str (target d) +:+ "': "
             +:+ exn_str (OSError "[Errno 22] Invalid argument" (target d)))]) ∧
    (Fs.is_dir (disk w) (target d) = false →
       is_Some (disk w !! target d) ∧ disk w' = delete (target d) (disk w) ∧
       stdout w' = stdout w ++
         [Logger.format_line (clock w (ticks w)) "INF"
            ("Deleted file: " +:+ Path.str (target d))]) ∧
    (Fs.is_dir (disk w) (target d) = true → recursive d = false →
       disk w' = disk w ∧
       stdout w' = stdout w ++
         [Logger.format_line (clock w (ticks w)) "ERR"
            ("Failed to delete '" +:+ Path.str (target d) +:+ "': "
             +:+ exn_str (IsADirectoryError (target d)))]).
Proof.
  intros Hex. destruct (Fs.is_dir (disk w) (target d)) eqn:Hdir.
  - destruct (recursive d) eqn:Hrec.
    + destruct (decide (target d = [])) as [Hnil|Hne].
      * rewrite delete_base_recursive by done. eexists; split; [done|].
        split_and!; [done| |done..]. intros _ _. rewrite Hnil.
        split; [apply filter_below_base|done].
      * rewrite delete_directory_recursive by done. eexists; split; [done|].
        split_and!; [|done..]. intros _ _ _. split; [|done]. by apply rmtree_removes_tree.
    + rewrite delete_directory_not_recursive by done. eexists; split; [done|].
      split_and!; done.
  - rewrite delete_file by done. eexists; split; [done|].
    split_and!; [done| |  |done].
    + intros _ Hnil. rewrite Hnil in Hdir. done.
    + intros _. destruct (not_dir_file _ _ Hex Hdir) as (data & Hl & _).
      split_and!; [eauto|done..].
Qed.

Lemma delete_existing_target_witness :
  ∃ w', execute (mk ["tmp"; "src"] true) scenario_world = Some (Ret tt, w') ∧
        removes_tree ["tmp"; "src"] (disk scenario_world) (disk w') ∧
        stdout w' = ["[12:00:00] [INF] - Deleted directory: tmp/src"].
Proof.
  destruct (delete_existing_target (mk ["tmp"; "src"] true) scenario_world)
    as (w' & H1 & H2 & _); [reflexivity|].
  exists w'. split; [exact H1|]. apply H2; [reflexivity|reflexivity|discriminate].
Defined.

(** C3 as stated fails in two places.  With [recursive = False] on an
    (empty) directory the operation removes no entry at all: it prints an
    error and leaves the file system as it was.  With [recursive = True]
    on the base directory the contents go but the directory is not
    removed: it still exists, and an error is printed. *)
Lemma delete_leaves_directories_in_place :
  (Fs.exists_ (disk small_world) ["d"] = true ∧
   execute (mk ["d"] false) small_world
   = Some (Ret tt, logged small_world "ERR"
                     "Failed to delete 'd': [Errno 21] Is a directory: 'd'") ∧
   ¬ removes_one_entry
       (disk small_world)
       (disk (logged small_world "ERR"
                "Failed to delete 'd': [Errno 21] Is a directory: 'd'"))) ∧
  (Fs.is_dir (disk small_world) [] = true ∧
   execute (mk [] true) small_world = Some (Ret tt, small_base_deleted) ∧
   ¬ removes_tree [] (disk small_world) (disk small_base_deleted)).
Proof.
  split.
  - split; [reflexivity|]. split; [vm_compute; reflexivity|].
    apply not_removes_one_entry_same.
  - split; [reflexivity|]. split; [vm_compute; reflexivity|].
    by intros [_ H].
Qed.

End delete_claims.

(** * Missing sources *)

(** C5.  On a source that does not exist, [CopyOperation.execute] returns
    normally, leaves the file system as it was, and prints exactly one
    line, with the error code ERR. *)
Theorem copy_missing_source (fuel : nat) (c : CopyOperation.t) (w : world) :
  Fs.exists_ (disk w) (CopyOperation.src c) = false →
  ∃ w', CopyOperation.execute fuel c w = Some (Ret tt, w') ∧
        disk w' = disk w ∧
        stdout w' = stdout w ++
          [Logger.format_line (clock w (ticks w)) "ERR"
             ("Source path not found: " +:+ Path.str (CopyOperation.src c))].
Proof.
  intros H. exists (logged w "ERR" ("Source path not found: " +:+ Path.str (CopyOperation.src c))).
  split; [|done].
  unfold CopyOperation.execute, ask, mbind, M_bind. simpl. by rewrite H.
Qed.

Lemma copy_missing_source_witness :
  Fs.exists_ (disk small_world) ["nowhere"] = false ∧
  ∃ w', CopyOperation.execute 0 (CopyOperation.mk ["nowhere"] ["d"; "copy"]) small_world
        = Some (Ret tt, w') ∧
        disk w' = disk small_world ∧
        stdout w' = ["[12:00:00] [ERR] - Source path not found: nowhere"].
Proof.
  split; [reflexivity|].
  apply (copy_missing_source 0 (CopyOperation.mk ["nowhere"] ["d"; "copy"]) small_world).
  reflexivity.
Defined.

Lemma perform_migration_not_found fuel m w :
  Fs.exists_ (disk w) (DrakensangMigrator.source m) = false →
  DrakensangMigrator.perform_migration fuel m w
  = Some (Ret tt,
          logged (logged w "INF" "Migration process initiated.") "ERR"
            ("Source directory not found: " +:+ Path.str (DrakensangMigrator.source m))).
Proof.
  intros H. unfold DrakensangMigrator.perform_migration, ask, mbind, M_bind.
  simpl. by rewrite H.
Qed.

(** C4.  When the source directory does not exist, [perform_migration]
    returns normally (so the guarded call in [main] has nothing to catch),
    the file system is untouched (no destination parent is made), and the
    only output is the initiation line and one ERR line: no task has
    started. *)
Theorem migration_missing_source (fuel : nat) (m : DrakensangMigrator.t) (w : world) :
  Fs.exists_ (disk w) (DrakensangMigrator.source m) = false →
  ∃ w', DrakensangMigrator.perform_migration fuel m w = Some (Ret tt, w') ∧
        main_migrate fuel m w = Some (Ret tt, w') ∧
        disk w' = disk w ∧
        stdout w' = stdout w ++
          [Logger.format_line (clock w (ticks w)) "INF" "Migration process initiated.";
           Logger.format_line (clock w (S (ticks w))) "ERR"
             ("Source directory not found: " +:+ Path.str (DrakensangMigrator.source m))].
Proof.
  intros H. eexists. split; [by apply perform_migration_not_found|].
  split; [|split; [done|]].
  - unfold main_migrate, try_except. by rewrite perform_migration_not_found.
  - simpl. by rewrite <- app_assoc.
Qed.

Lemma migration_missing_source_witness :
  Fs.exists_ (disk small_world) ["old"] = false ∧
  ∃ w', DrakensangMigrator.perform_migration 0
          (DrakensangMigrator.mk ["old"] ["new"; "game"] None) small_world
        = Some (Ret tt, w') ∧
        main_migrate 0 (DrakensangMigrator.mk ["old"] ["new"; "game"] None) small_world
        = Some (Ret tt, w') ∧
        disk w' = disk small_world ∧
        stdout w' = ["[12:00:00] [INF] - Migration process initiated.";
                     "[12:00:00] [ERR] - Source directory not found: old"].
Proof.
  split; [reflexivity|].
  apply (migration_missing_source 0 (DrakensangMigrator.mk ["old"] ["new"; "game"] None)
           small_world).
  reflexivity.
Defined.

(** * Loops and sequences *)

Lemma bind_ext {A B} (m : M A) (k1 k2 : A → M B) w :
  (∀ a w', k1 a w' = k2 a w') → (m ≫= k1) w = (m ≫= k2) w.
Proof. intros H. unfold mbind, M_bind. destruct (m w) as [[[a|e] w']|]; auto. Qed.

Lemma bind_assoc {A B C} (m : M A) (k : A → M B) (h : B → M C) w :
  ((m ≫= k) ≫= h) w = (m ≫= (λ a, k a ≫= h)) w.
Proof. unfold mbind, M_bind. by destruct (m w) as [[[a|e] w']|]. Qed.

Lemma mret_bind {A B} (a : A) (k : A → M B) w : (mret a ≫= k) w = k a w.
Proof. reflexivity. Qed.

Lemma bind_mret_tt (m : M unit) w : (m ;; mret tt) w = m w.
Proof. unfold mbind, M_bind. by destruct (m w) as [[[[]|e] w']|]. Qed.

Lemma for_each_singleton {A} (x : A) (f : A → M unit) w : for_each [x] f w = f x w.
Proof. apply bind_mret_tt. Qed.

Lemma for_each_app {A} (l1 l2 : list A) (f : A → M unit) w :
  for_each (l1 ++ l2) f w = (for_each l1 f ;; for_each l2 f) w.
Proof.
  revert w. induction l1 as [|x l1 IH]; intros w; [done|].
  simpl. rewrite bind_assoc. by apply bind_ext.
Qed.

(** A loop that returns ran its last iteration to a return. *)
Lemma for_each_snoc_inv {A} (l : list A) (x : A) (f : A → M unit) w w' :
  for_each (l ++ [x]) f w = Some (Ret tt, w') →
  ∃ w1, f x w1 = Some (Ret tt, w').
Proof.
  rewrite for_each_app. intros (a & w1 & _ & H)%bind_Ret_inv.
  rewrite for_each_singleton in H. eauto.
Qed.

(** * The order of the tasks *)

Section migration_order.
Import DrakensangMigrator.

Lemma tasks_built (m : DrakensangMigrator.t) :
  filter_None (tasks m)
  = copy_task m
    :: match shortcut m with Some s => [shortcut_task s] | None => [] end
    ++ [remove_task m].
Proof. unfold tasks, filter_None. by destruct (shortcut m). Qed.

(** Once the source has been found, the run is the prelude, the three
    tasks in order, and the final log line. *)
Lemma perform_migration_found (fuel : nat) (m : DrakensangMigrator.t) (w : world) :
  Fs.exists_ (disk w) (source m) = true →
  perform_migration fuel m w
  = (ensure_destination_parent m ;;
     MigrationTask.run fuel (copy_task m) ;;
     match shortcut m with
     | Some s => MigrationTask.run fuel (shortcut_task s)
     | None => mret tt
     end ;;
     MigrationTask.run fuel (remove_task m) ;;
     Logger.info "All migration tasks completed successfully.")
      (logged w "INF" "Migration process initiated.").
Proof.
  intros Hex. unfold perform_migration.
  rewrite (bind_Ret _ _ _ _ _ (info_spec _ w)).
  rewrite (bind_Ret (ask _) _ _ true (logged w "INF" "Migration process initiated."))
    by (unfold ask; simpl; by rewrite Hex).
  simpl negb. cbv iota.
  apply bind_ext; intros [] w0. rewrite tasks_built.
  destruct (shortcut m) as [s|]; simpl app.
  - rewrite !for_each_cons, !bind_assoc. apply bind_ext; intros [] w1.
    rewrite bind_assoc. apply bind_ext; intros [] w2.
    rewrite bind_assoc. apply bind_ext; intros [] w3. reflexivity.
  - rewrite !for_each_cons, !bind_assoc. apply bind_ext; intros [] w1.
    rewrite mret_bind, bind_assoc. apply bind_ext; intros [] w2. reflexivity.
Qed.

(** [mkdir(parents=True, exist_ok=True)] on a path that is a regular file
    raises [FileExistsError] and changes nothing. *)
Lemma mkdir_parents_on_file (fs : FS) (p : path) (data : list byte) :
  Fs.stat fs p = Some (EFile data) →
  Fs.mkdir_parents fs p = (Raise (FileExistsError p), fs).
Proof.
  intros Hp. unfold Fs.mkdir_parents.
  assert (Fs.os_mkdir fs (reverse (reverse p)) = (Raise (FileExistsError p), fs)) as Hmk.
  { rewrite reverse_involutive. unfold Fs.os_mkdir. by rewrite Hp. }
  assert (Fs.is_dir fs (reverse (reverse p)) = false) as Hd.
  { rewrite reverse_involutive. unfold Fs.is_dir. by rewrite Hp. }
  destruct (reverse p) as [|x rp]; cbn [Fs.mkdir_parents_rev]; cbv zeta;
    by rewrite Hmk, Hd.
Qed.

(** C7 fails on the code.  The tasks are built in the stated order
    ([tasks_built]) and run in that order ([perform_migration_found]), but
    a started run does skip tasks: when the destination is an existing
    regular file, the [mkdir] of the copy task raises [FileExistsError]
    outside any [try], the exception leaves the loop over the tasks, and
    neither the delete of the shortcut nor the delete of the source is
    started.  The log ends with the start line of the copy task and the
    file system is as it was. *)
Theorem tasks_skipped_when_copy_raises (fuel : nat) (m : DrakensangMigrator.t)
    (w : world) (data : list byte) :
  Fs.exists_ (disk w) (source m) = true →
  Fs.stat (disk w) (destination m) = Some (EFile data) →
  Fs.exists_ (disk w) (Path.parent (destination m)) = true →
  perform_migration fuel m w
  = Some (Raise (FileExistsError (destination m)),
          logged (logged w "INF" "Migration process initiated.")
                 "INF" "Starting task: Copy Game Files").
Proof.
  intros Hex Hd Hpar. rewrite perform_migration_found by done.
  set (w0 := logged w "INF" "Migration process initiated.").
  assert (ensure_destination_parent m w0 = Some (Ret tt, w0)) as H0.
  { unfold ensure_destination_parent, ask, mbind, M_bind. simpl. by rewrite Hpar. }
  rewrite (bind_Ret _ _ _ _ _ H0).
  apply bind_Raise. unfold MigrationTask.run.
  rewrite (bind_Ret _ _ _ _ _ (info_spec _ w0)).
  apply bind_Raise. simpl MigrationTask.operations. rewrite for_each_singleton.
  simpl. unfold CopyOperation.execute, ask, sys, mbind, M_bind. simpl.
  rewrite Hex. simpl. by rewrite (mkdir_parents_on_file _ _ data).
Qed.

Lemma tasks_skipped_when_copy_raises_witness :
  perform_migration 2 (mk ["s"] ["d"] (Some ["s.lnk"])) blocked_world
  = Some (Raise (FileExistsError ["d"]), blocked_at_raise).
Proof.
  apply (tasks_skipped_when_copy_raises 2 (mk ["s"] ["d"] (Some ["s.lnk"]))
           blocked_world [x62]); reflexivity.
Defined.

(** The specification's scenario, run: the tree is under [tmp/dst], the
    shortcut and [tmp/src] are gone, and the log shows the three tasks in
    order ([scenario_after]). *)
Example scenario_run :
  perform_migration 3 scenario_migrator scenario_world = Some (Ret tt, scenario_after).
Proof. vm_compute. reflexivity. Qed.

End migration_order.

(** * Tasks and exceptions *)

(** A task made of delete operations only always reaches its completion
    line. *)
Lemma for_each_deletes_return fuel (ds : list DeleteOperation.t) w :
  ∃ w', for_each (Delete <$> ds) (Operation_execute fuel) w = Some (Ret tt, w').
Proof.
  revert w. induction ds as [|d ds IH]; intros w; [by eexists|].
  destruct (delete_returns d w) as [w1 H1]. destruct (IH w1) as [w2 H2].
  exists w2. rewrite fmap_cons, for_each_cons.
  by rewrite (bind_Ret _ _ _ _ _ H1).
Qed.

Lemma delete_task_completes fuel name (ds : list DeleteOperation.t) w :
  ∃ w1, MigrationTask.run fuel (MigrationTask.mk name (Delete <$> ds)) w
        = Some (Ret tt, logged w1 "INF" ("Completed task: " +:+ name)).
Proof.
  destruct (for_each_deletes_return fuel ds (logged w "INF" ("Starting task: " +:+ name)))
    as [w1 H1].
  exists w1. unfold MigrationTask.run.
  rewrite (bind_Ret _ _ _ _ _ (info_spec _ w)). simpl MigrationTask.operations.
  by rewrite (bind_Ret _ _ _ _ _ H1).
Qed.

(** C8 fails on the code.  [CopyOperation.execute] creates its
    destination directories outside any [try]: when the destination is an
    existing file, [mkdir] raises [FileExistsError], the exception leaves
    [execute] and [run], and the task's completion line is never printed.
    Only the start line is in the log and nothing was copied. *)
Theorem copy_task_aborts_on_file_destination (fuel : nat) :
  MigrationTask.run fuel
    (MigrationTask.mk "Copy Game Files" [Copy (CopyOperation.mk ["s"] ["d"])])
    blocked_world
  = Some (Raise (FileExistsError ["d"]),
          logged blocked_world "INF" "Starting task: Copy Game Files").
Proof. vm_compute. reflexivity. Qed.

(** The same world through the whole migration: the exception reaches the
    guarded call in [main], which logs it; the later tasks never start. *)
Example migration_aborts_on_file_destination :
  main_migrate 2 (DrakensangMigrator.mk ["s"] ["d"] None) blocked_world
  = Some (Ret tt,
          World (disk blocked_world)
                [ "[12:00:00] [INF] - Migration process initiated.";
                  "[12:00:00] [INF] - Starting task: Copy Game Files";
                  "[12:00:00] [EXE] - Unexpected error occurred: [Errno 17] File exists: 'd'" ]
                sample_clock 3).
Proof. vm_compute. reflexivity. Qed.

(** * The second run *)

Section second_run.
Import DrakensangMigrator.

(** After a recursive delete of a target other than the base, the target
    does not exist. *)
Lemma delete_recursive_gone (p : path) (w w' : world) :
  p ≠ [] →
  DeleteOperation.execute (DeleteOperation.mk p true) w = Some (Ret tt, w') →
  Fs.exists_ (disk w') p = false.
Proof.
  intros Hne. destruct (Fs.exists_ (disk w) p) eqn:Hex.
  - destruct (Fs.is_dir (disk w) p) eqn:Hdir.
    + rewrite delete_directory_recursive by done. intros [= <-]. simpl.
      unfold Fs.exists_. rewrite stat_lookup by done.
      rewrite (rmtree_removes_subtree (disk w) p p). by rewrite decide_True.
    + rewrite delete_file by done. intros [= <-]. simpl.
      unfold Fs.exists_. rewrite stat_lookup by done. by rewrite lookup_delete_eq.
  - rewrite delete_missing by done. by intros [= <-].
Qed.

Lemma remove_task_gone fuel (m : DrakensangMigrator.t) w w' :
  source m ≠ [] →
  MigrationTask.run fuel (remove_task m) w = Some (Ret tt, w') →
  Fs.exists_ (disk w') (source m) = false.
Proof.
  intros Hne. unfold MigrationTask.run.
  rewrite (bind_Ret _ _ _ _ _ (info_spec _ w)). simpl MigrationTask.operations.
  intros ([] & w1 & H1 & H2)%bind_Ret_inv.
  rewrite for_each_singleton in H1. simpl in H1.
  apply delete_recursive_gone in H1; [|done].
  rewrite info_spec in H2. by injection H2 as <-.
Qed.

(** A migration that returns leaves no source behind, unless the source is
    the base directory. *)
Lemma migration_removes_source fuel (m : DrakensangMigrator.t) w w' :
  source m ≠ [] →
  perform_migration fuel m w = Some (Ret tt, w') →
  Fs.exists_ (disk w') (source m) = false.
Proof.
  intros Hne Hrun. destruct (Fs.exists_ (disk w) (source m)) eqn:Hex.
  - rewrite perform_migration_found in Hrun by done.
    apply bind_Ret_inv in Hrun as ([] & w0 & _ & Hrun).
    apply bind_Ret_inv in Hrun as ([] & w1 & _ & Hrun).
    apply bind_Ret_inv in Hrun as ([] & w2 & _ & Hrun).
    apply bind_Ret_inv in Hrun as ([] & w3 & Hrm & Hrun).
    apply remove_task_gone in Hrm; [|done].
    rewrite info_spec in Hrun. by injection Hrun as <-.
  - rewrite perform_migration_not_found in Hrun by done. by injection Hrun as <-.
Qed.

(** C2, as the code has it.  After a migration that returned, of a source
    other than the base directory, a second migration on the same paths
    finds no source: it returns normally, changes nothing in the file
    system, and prints only the initiation line and the precondition error.
    (The base directory cannot be removed, so it is excluded.) *)
Theorem second_migration_is_noop (fuel1 fuel2 : nat) (m : DrakensangMigrator.t)
    (w w1 : world) :
  source m ≠ [] →
  perform_migration fuel1 m w = Some (Ret tt, w1) →
  Fs.exists_ (disk w1) (source m) = false ∧
  ∃ w2, perform_migration fuel2 m w1 = Some (Ret tt, w2) ∧
        disk w2 = disk w1 ∧
        stdout w2 = stdout w1 ++
          [Logger.format_line (clock w1 (ticks w1)) "INF" "Migration process initiated.";
           Logger.format_line (clock w1 (S (ticks w1))) "ERR"
             ("Source directory not found: " +:+ Path.str (source m))].
Proof.
  intros Hne Hrun. pose proof (migration_removes_source _ _ _ _ Hne Hrun) as Hgone.
  split; [done|]. rewrite perform_migration_not_found by done.
  eexists. split; [done|]. split; [done|]. simpl. by rewrite <- app_assoc.
Qed.

Lemma second_migration_is_noop_witness :
  source scenario_migrator ≠ [] ∧
  perform_migration 3 scenario_migrator scenario_world = Some (Ret tt, scenario_after) ∧
  Fs.exists_ (disk scenario_after) ["tmp"; "src"] = false ∧
  ∃ w2, perform_migration 3 scenario_migrator scenario_after = Some (Ret tt, w2) ∧
        disk w2 = disk scenario_after ∧
        stdout w2 = stdout scenario_after ++
          [ "[12:00:00] [INF] - Migration process initiated.";
            "[12:00:00] [ERR] - Source directory not found: tmp/src" ].
Proof.
  split; [done|]. split; [vm_compute; reflexivity|].
  apply (second_migration_is_noop 3 3 scenario_migrator scenario_world scenario_after);
    [done | vm_compute; reflexivity].
Defined.

(** C2 as stated fails when the source is the base directory, which
    [rmtree] cannot remove: the first migration returns (the failure is
    only logged), the source still exists, and the second migration prints
    no precondition error but starts over with the copy task. *)
Lemma second_migration_of_base_runs_again :
  perform_migration 2 (mk [] ["x"] None) empty_world = Some (Ret tt, base_after) ∧
  Fs.exists_ (disk base_after) [] = true ∧
  ∃ w2, perform_migration 2 (mk [] ["x"] None) base_after = Some (Ret tt, w2) ∧
        stdout w2 = stdout base_after ++
          [ "[12:00:00] [INF] - Migration process initiated.";
            "[12:00:00] [INF] - Starting task: Copy Game Files";
            "[12:00:00] [INF] - Copy operation completed successfully.";
            "[12:00:00] [INF] - Completed task: Copy Game Files";
            "[12:00:00] [INF] - Starting task: Remove Old Installation";
            "[12:00:00] [ERR] - Failed to delete '.': [Errno 22] Invalid argument: '.'";
            "[12:00:00] [INF] - Completed task: Remove Old Installation";
            "[12:00:00] [INF] - All migration tasks completed successfully." ] ∧
        stdout w2 ≠ stdout base_after ++
          [ "[12:00:00] [INF] - Migration process initiated.";
            "[12:00:00] [ERR] - Source directory not found: ." ].
Proof.
  split; [vm_compute; reflexivity|]. split; [reflexivity|].
  eexists. split; [vm_compute; reflexivity|]. split; [vm_compute; reflexivity|].
  vm_compute. discriminate.
Qed.

End second_run.

(** * Paths and listings *)

Lemma relative_to_Some (p base r : path) :
  Path.relative_to p base = Some r ↔ p = base ++ r.
Proof.
  revert p. induction base as [|b base IH]; intros p; simpl.
  - split; [by intros [= ->]|by intros ->].
  - destruct p as [|x p]; [done|].
    case_decide as Hx; [subst x; rewrite IH|]; split; intros H; by simplify_eq.
Qed.

Lemma relative_to_app (base r : path) : Path.relative_to (base ++ r) base = Some r.
Proof. by apply relative_to_Some. Qed.

Lemma parent_snoc (p : path) (x : string) : Path.parent (p ++ [x]) = p.
Proof. apply removelast_last. Qed.

Lemma parent_app (p r : path) : r ≠ [] → Path.parent (p ++ r) = p ++ removelast r.
Proof. intros. by apply removelast_app. Qed.

Lemma child_of_Some top kv n e :
  Fs.child_of top kv = Some (n, e) ↔ kv = (top ++ [n], e).
Proof.
  unfold Fs.child_of. destruct kv as [k e0]; simpl.
  destruct (Path.relative_to k top) as [r|] eqn:Hr.
  - apply relative_to_Some in Hr as ->.
    destruct r as [|x [|y r]]; split; intros H; simplify_eq; try done.
    all: try (apply app_inv_head in H; by simplify_eq).
    all: apply (f_equal length) in H; rewrite !length_app in H; simpl in H; lia.
  - split; [done|]. intros [= -> ->]. by rewrite relative_to_app in Hr.
Qed.

Lemma scandir_Some fs top ents :
  Fs.scandir fs top = Some ents →
  ∀ n e, (n, e) ∈ ents ↔ fs !! (top ++ [n]) = Some e.
Proof.
  unfold Fs.scandir. destruct (Fs.stat fs top) as [[]|]; intros [= <-] n e.
  rewrite list_elem_of_omap. split.
  - intros (kv & Hin & Hc). apply child_of_Some in Hc as ->.
    by apply elem_of_map_to_list in Hin.
  - intros H. exists (top ++ [n], e). split; [by apply elem_of_map_to_list|].
    by apply child_of_Some.
Qed.

Lemma dir_names_spec ents d : d ∈ Fs.dir_names ents ↔ (d, EDir) ∈ ents.
Proof.
  unfold Fs.dir_names. rewrite list_elem_of_omap. split.
  - intros ([n [data|]] & Hin & H); simplify_eq/=. done.
  - intros H. by exists (d, EDir).
Qed.

Lemma file_names_spec ents f : f ∈ Fs.file_names ents ↔ ∃ data, (f, EFile data) ∈ ents.
Proof.
  unfold Fs.file_names. rewrite list_elem_of_omap. split.
  - intros ([n [data|]] & Hin & H); simplify_eq/=. eauto.
  - intros [data H]. by exists (f, EFile data).
Qed.

Lemma height_ge fs (p : path) e : fs !! p = Some e → (length p ≤ Fs.height fs)%nat.
Proof.
  intros H. apply max_list_elem_of_le, list_elem_of_fmap.
  exists (p, e). split; [done|]. by apply elem_of_map_to_list.
Qed.

(** In a well-formed file system everything above an entry is a
    directory. *)
Lemma wf_above fs (p q : path) e :
  Fs.wf fs → p ≠ [] → q ≠ [] → fs !! (p ++ q) = Some e → fs !! p = Some EDir.
Proof.
  intros Hwf Hp. revert e. induction q as [|x q IH] using rev_ind; [done|].
  intros e _ H. apply Hwf in H as [_ H].
  rewrite app_assoc, parent_snoc in H. apply is_dir_stat in H.
  destruct (decide (q = [])) as [->|Hq].
  - rewrite app_nil_r in H. by rewrite stat_lookup in H.
  - rewrite stat_lookup in H by (by destruct p). eauto.
Qed.

(** * Making directories *)

(** A path through a regular file: [mkdir] fails with ENOTDIR and names
    the whole path. *)
Example mkdir_through_file :
  Fs.mkdir_parents (disk small_world) ["f"; "x"; "y"]
  = (Raise (NotADirectoryError ["f"; "x"; "y"]), disk small_world).
Proof. vm_compute. reflexivity. Qed.

Lemma no_file_through fs p : no_file_on_path fs p → Fs.through_file fs p = false.
Proof.
  intros Hnf. apply not_true_is_false. unfold Fs.through_file.
  intros (n & _ & Hn)%existsb_exists.
  destruct (Fs.stat fs (take n p)) as [[data|]|] eqn:Hst; [|done..].
  destruct (take n p) as [|x q] eqn:Hq; [done|]. simpl in Hst.
  apply (Hnf (x :: q) data); [|done]. rewrite <- Hq. apply prefix_take.
Qed.

Lemma mkdir_parents_rev_dir fs rp :
  Fs.is_dir fs (reverse rp) = true → Fs.mkdir_parents_rev rp fs = (Ret tt, fs).
Proof.
  intros Hd. apply is_dir_stat in Hd as Hs.
  destruct rp; cbn [Fs.mkdir_parents_rev]; unfold Fs.os_mkdir; rewrite Hs; by rewrite Hd.
Qed.

Lemma mkdir_parents_dir fs p :
  Fs.is_dir fs p = true → Fs.mkdir_parents fs p = (Ret tt, fs).
Proof.
  intros Hd. apply mkdir_parents_rev_dir. by rewrite reverse_involutive.
Qed.

Lemma mkdir_parents_rev_fresh fs rp :
  Fs.stat fs (reverse rp) = None → Fs.is_dir fs (Path.parent (reverse rp)) = true →
  Fs.mkdir_parents_rev rp fs = (Ret tt, <[reverse rp := EDir]> fs).
Proof.
  intros Hn Hd. apply is_dir_stat in Hd as Hs.
  destruct rp; cbn [Fs.mkdir_parents_rev]; unfold Fs.os_mkdir; by rewrite Hn, Hs.
Qed.

Lemma mkdir_parents_fresh fs p :
  Fs.stat fs p = None → Fs.is_dir fs (Path.parent p) = true →
  Fs.mkdir_parents fs p = (Ret tt, <[p := EDir]> fs).
Proof.
  intros Hn Hd. unfold Fs.mkdir_parents.
  rewrite mkdir_parents_rev_fresh; rewrite reverse_involutive; done.
Qed.

Lemma mkdir_parents_rev_ok rp fs :
  no_file_on_path fs (reverse rp) →
  ∃ fs', Fs.mkdir_parents_rev rp fs = (Ret tt, fs') ∧
         Fs.is_dir fs' (reverse rp) = true ∧
         (∀ q, ¬ q `prefix_of` reverse rp → fs' !! q = fs !! q) ∧
         (∀ q e, fs !! q = Some e → fs' !! q = Some e).
Proof.
  revert fs. induction rp as [|x rp IH]; intros fs Hnf.
  { exists fs. by rewrite mkdir_parents_rev_dir. }
  set (p := reverse (x :: rp)) in *.
  assert (Hp : p = reverse rp ++ [x]) by apply reverse_cons.
  assert (Hpne : p ≠ []) by (rewrite Hp; by destruct (reverse rp)).
  assert (Hpar : Path.parent p = reverse rp) by (rewrite Hp; apply parent_snoc).
  destruct (Fs.stat fs p) as [e|] eqn:Hst.
  - assert (Fs.is_dir fs p = true) as Hd.
    { apply is_dir_stat. rewrite Hst. destruct e as [data|]; [|done].
      rewrite stat_lookup in Hst by done. by destruct (Hnf p data). }
    exists fs. by rewrite mkdir_parents_rev_dir.
  - destruct (Fs.stat fs (Path.parent p)) as [[data|]|] eqn:Hsp.
    + exfalso. rewrite Hpar in Hsp. destruct (reverse rp) as [|y q] eqn:Hq; [done|].
      apply (Hnf (y :: q) data); [|done]. rewrite Hp. by apply prefix_app_r.
    + exists (<[p := EDir]> fs). rewrite mkdir_parents_rev_fresh by (by apply is_dir_stat || done).
      split; [done|]. split; [|split].
      * apply is_dir_stat. rewrite stat_lookup by done. apply lookup_insert_eq.
      * intros q Hq. apply lookup_insert_ne. by intros <-.
      * intros q e Hq. rewrite lookup_insert_ne; [done|]. intros <-.
        rewrite stat_lookup in Hst by done. congruence.
    + destruct (IH fs) as (fs1 & Hrun & Hd1 & Hframe & Hmono).
      { intros q data Hq. apply Hnf. rewrite Hp. by apply prefix_app_r. }
      assert (Fs.stat fs1 p = None) as Hst1.
      { rewrite stat_lookup in * by done. rewrite Hframe; [done|].
        rewrite Hp. apply prefix_snoc_not. }
      exists (<[p := EDir]> fs1).
      cbn [Fs.mkdir_parents_rev]. fold p. unfold Fs.os_mkdir at 1. rewrite Hst, Hsp.
      unfold Fs.not_found. rewrite (no_file_through fs p Hnf), Hrun. unfold Fs.mkdir_exist_ok, Fs.os_mkdir. rewrite Hst1, Hpar.
      apply is_dir_stat in Hd1 as ->.
      split; [done|]. split; [|split].
      * apply is_dir_stat. rewrite stat_lookup by done. apply lookup_insert_eq.
      * intros q Hq. rewrite lookup_insert_ne by (by intros <-). apply Hframe.
        intros Hq'. apply Hq. rewrite Hp. by apply prefix_app_r.
      * intros q e Hq. rewrite lookup_insert_ne; [by apply Hmono|]. intros <-.
        rewrite stat_lookup in Hst by done. congruence.
Qed.

Lemma mkdir_parents_ok fs p :
  no_file_on_path fs p →
  ∃ fs', Fs.mkdir_parents fs p = (Ret tt, fs') ∧
         Fs.is_dir fs' p = true ∧
         (∀ q, ¬ q `prefix_of` p → fs' !! q = fs !! q) ∧
         (∀ q e, fs !! q = Some e → fs' !! q = Some e).
Proof.
  intros Hnf. unfold Fs.mkdir_parents.
  destruct (mkdir_parents_rev_ok (reverse p) fs) as (fs' & H);
    rewrite reverse_involutive in *; eauto.
Qed.

(** * Loop invariants *)

(** A loop whose every iteration returns and keeps [I] returns and keeps
    [I]; what an iteration establishes for its element ([Q]) holds for
    every element at the end, when later iterations preserve it. *)
Lemma for_each_invariant {A} (I : world → Prop) (Q : A → world → Prop)
    (l : list A) (f : A → M unit) :
  (∀ x w, x ∈ l → I w →
     ∃ w', f x w = Some (Ret tt, w') ∧ I w' ∧ Q x w' ∧ (∀ y, Q y w → Q y w')) →
  ∀ w, I w →
  ∃ w', for_each l f w = Some (Ret tt, w') ∧ I w' ∧ (∀ x, x ∈ l → Q x w').
Proof.
  intros Hstep.
  assert (∀ l', l' ⊆ l → ∀ w, I w →
    ∃ w', for_each l' f w = Some (Ret tt, w') ∧ I w' ∧
          (∀ y, Q y w → Q y w') ∧ (∀ x, x ∈ l' → Q x w')) as Hgen.
  { induction l' as [|x l' IH]; intros Hsub w HI.
    - exists w. split; [done|]. split; [done|]. split; [done|]. by intros x ?%elem_of_nil.
    - destruct (Hstep x w) as (w1 & Hf & HI1 & HQ1 & Hpres1); [set_solver|done|].
      destruct (IH ltac:(set_solver) w1 HI1) as (w2 & Hrest & HI2 & Hpres2 & HQ2).
      exists w2. rewrite for_each_cons, (bind_Ret _ _ _ _ _ Hf).
      split; [done|]. split; [done|]. split; [by auto|].
      intros y [->|Hy]%elem_of_cons; auto. }
  intros w HI. destruct (Hgen l ltac:(done) w HI) as (w' & ? & ? & _ & ?). eauto.
Qed.

Lemma with_disk_id w : with_disk w (disk w) = w.
Proof. by destruct w. Qed.

(** * Copying a tree *)

Section copy_tree.
Variables (src dst : path) (fs0 : FS).
Hypothesis Hwf : Fs.wf fs0.
Hypothesis Hsd : ¬ src `prefix_of` dst.
Hypothesis Hds : ¬ dst `prefix_of` src.
Hypothesis Hcompat : compatible fs0 src dst.

Local Abbreviation Inv := (copy_inv src dst fs0).

Lemma src_not_base : src ≠ [].
Proof. intros ->. apply Hsd, prefix_nil. Qed.

Lemma dst_not_base : dst ≠ [].
Proof. intros ->. apply Hds, prefix_nil. Qed.

(** Nothing below the destination is at or below anything in the source
    tree. *)
Lemma dst_src_apart r r' : ¬ (dst ++ r) `prefix_of` (src ++ r').
Proof.
  intros H. apply prefix_app_l in H.
  destruct (prefix_weak_total dst src (src ++ r')); [done|by apply prefix_app_r|done..].
Qed.

Lemma dst_src_ne r r' : src ++ r' ≠ dst ++ r.
Proof. intros H. apply (dst_src_apart r r'). by rewrite H. Qed.

Lemma src_lookup_ne r : src ++ r ≠ [].
Proof. pose proof src_not_base. by destruct src. Qed.

Lemma dst_lookup_ne r : dst ++ r ≠ [].
Proof. pose proof dst_not_base. by destruct dst. Qed.

(** What stands below the destination has the kind of its source. *)
Lemma inv_same_kind fs r e e' :
  Inv fs → r ≠ [] → fs0 !! (src ++ r) = Some e → fs !! (dst ++ r) = Some e' →
  same_kind e e'.
Proof.
  intros [_ HC] Hr He He'. destruct (HC r e' Hr He') as [H|H].
  - by apply (Hcompat r).
  - rewrite He in H. injection H as <-. by destruct e.
Qed.

Lemma inv_insert fs r e :
  Inv fs → r ≠ [] → fs0 !! (src ++ r) = Some e → Inv (<[dst ++ r := e]> fs).
Proof.
  intros [HF HC] Hr He. split.
  - intros r'. rewrite lookup_insert_ne; [apply HF|]. apply not_eq_sym, dst_src_ne.
  - intros r' e' Hr' H. destruct (decide (dst ++ r = dst ++ r')) as [Heq|Hne].
    + rewrite Heq, lookup_insert_eq in H. injection H as <-.
      apply app_inv_head in Heq as <-. by right.
    + rewrite lookup_insert_ne in H by done. by apply HC.
Qed.

(** [dest_dir.mkdir(parents=True, exist_ok=True)] in the loop body. *)
Lemma visit_mkdir fs r :
  Inv fs → fs0 !! (src ++ r) = Some EDir →
  Fs.is_dir fs (dst ++ removelast r) = true →
  ∃ fsA, Fs.mkdir_parents fs (dst ++ r) = (Ret tt, fsA) ∧ Inv fsA ∧
         Fs.is_dir fsA (dst ++ r) = true ∧
         (∀ p, p ≠ dst ++ r → fsA !! p = fs !! p).
Proof.
  intros HI Hdir Hpar. destruct (decide (r = [])) as [->|Hr].
  { exists fs. change (removelast []) with (@nil string) in Hpar.
    rewrite mkdir_parents_dir by done. by split_and!. }
  destruct (fs !! (dst ++ r)) as [e'|] eqn:Hl.
  - pose proof (inv_same_kind _ _ _ _ HI Hr Hdir Hl) as Hk.
    destruct e'; [done|].
    assert (Fs.is_dir fs (dst ++ r) = true) as Hd.
    { apply is_dir_stat. by rewrite stat_lookup by apply dst_lookup_ne. }
    exists fs. rewrite mkdir_parents_dir by done. by split_and!.
  - exists (<[dst ++ r := EDir]> fs). rewrite mkdir_parents_fresh.
    + split; [done|]. split; [by apply inv_insert|]. split.
      * apply is_dir_stat. rewrite stat_lookup by apply dst_lookup_ne. apply lookup_insert_eq.
      * intros p Hp. by apply lookup_insert_ne.
    + by rewrite stat_lookup by apply dst_lookup_ne.
    + by rewrite parent_app.
Qed.

(** One iteration of the inner loop: the file arrives under the
    destination, no error is logged. *)
Lemma copy_file_ok w r f data :
  Inv (disk w) → Fs.is_dir (disk w) (dst ++ r) = true →
  fs0 !! (src ++ r ++ [f]) = Some (EFile data) →
  CopyOperation.copy_file (src ++ r) (dst ++ r) f w
  = Some (Ret tt, with_disk w (<[dst ++ r ++ [f] := EFile data]> (disk w))).
Proof.
  intros HI Hd Hf. pose proof HI as [HF HC].
  unfold CopyOperation.copy_file, try_except, sys, Fs.copy2, Path.joinpath.
  rewrite <- !app_assoc.
  assert (Fs.is_dir (disk w) (dst ++ r ++ [f]) = false) as ->.
  { unfold Fs.is_dir. rewrite stat_lookup by apply dst_lookup_ne.
    destruct (disk w !! (dst ++ r ++ [f])) as [e'|] eqn:Hl; [|done].
    pose proof (inv_same_kind _ (r ++ [f]) _ _ HI ltac:(by destruct r) Hf Hl).
    by destruct e'. }
  unfold Fs.copyfile.
  rewrite bool_decide_eq_false_2 by apply dst_src_ne. simpl andb. cbv iota.
  rewrite stat_lookup by apply src_lookup_ne. rewrite HF, Hf.
  rewrite stat_lookup by apply dst_lookup_ne.
  destruct (disk w !! (dst ++ r ++ [f])) as [e'|] eqn:Hl.
  - pose proof (inv_same_kind _ (r ++ [f]) _ _ HI ltac:(by destruct r) Hf Hl).
    by destruct e'.
  - rewrite app_assoc, parent_snoc. apply is_dir_stat in Hd. by rewrite Hd.
Qed.

(** The inner loop over the files of one directory. *)
Lemma copy_files_ok w r files :
  Inv (disk w) → Fs.is_dir (disk w) (dst ++ r) = true →
  (∀ f, f ∈ files → ∃ data, fs0 !! (src ++ r ++ [f]) = Some (EFile data)) →
  ∃ fs', for_each files (CopyOperation.copy_file (src ++ r) (dst ++ r)) w
         = Some (Ret tt, with_disk w fs') ∧
    Inv fs' ∧ Fs.is_dir fs' (dst ++ r) = true ∧
    (∀ p, ¬ (dst ++ r) `prefix_of` p → fs' !! p = disk w !! p) ∧
    (∀ f data, f ∈ files → fs0 !! (src ++ r ++ [f]) = Some (EFile data) →
       fs' !! (dst ++ r ++ [f]) = Some (EFile data)).
Proof.
  intros HI Hd Hfiles.
  destruct (for_each_invariant
    (λ w', ∃ fs', w' = with_disk w fs' ∧ Inv fs' ∧ Fs.is_dir fs' (dst ++ r) = true ∧
                  (∀ p, ¬ (dst ++ r) `prefix_of` p → fs' !! p = disk w !! p))
    (λ f w', ∀ data, fs0 !! (src ++ r ++ [f]) = Some (EFile data) →
                     disk w' !! (dst ++ r ++ [f]) = Some (EFile data))
    files (CopyOperation.copy_file (src ++ r) (dst ++ r))) with w
    as (w' & Hrun & (fs' & -> & HI' & Hd' & Hfr') & HQ).
  - intros f w1 Hf (fs1 & -> & HI1 & Hd1 & Hfr1).
    destruct (Hfiles f Hf) as [data Hdata].
    exists (with_disk w (<[dst ++ r ++ [f] := EFile data]> fs1)). split_and!.
    + by rewrite (copy_file_ok _ r f data).
    + eexists. split; [done|]. split_and!.
      * by apply (inv_insert _ (r ++ [f])); [|destruct r|].
      * apply is_dir_stat in Hd1. apply is_dir_stat.
        rewrite stat_lookup in * by apply dst_lookup_ne.
        rewrite lookup_insert_ne; [done|]. rewrite app_assoc.
        intros H. by apply (prefix_snoc_not (dst ++ r) f); rewrite H.
      * intros p Hp. rewrite lookup_insert_ne; [by apply Hfr1|].
        intros <-. apply Hp. rewrite app_assoc. by apply prefix_app_r.
    + intros data' Hdata'. simpl. rewrite lookup_insert_eq. congruence.
    + intros y Hy data' Hdata'. simpl in *. destruct (decide (y = f)) as [->|Hne].
      * rewrite lookup_insert_eq. congruence.
      * rewrite lookup_insert_ne; [by apply Hy|].
        intros H. do 2 apply app_inv_head in H. congruence.
  - exists (disk w). by rewrite with_disk_id.
  - exists fs'. split_and!; try done. intros f data Hf Hdata. by apply (HQ f Hf).
Qed.

(** The loop body for one directory of the source. *)
Lemma visit_ok w r dirs files :
  Inv (disk w) → fs0 !! (src ++ r) = Some EDir →
  Fs.is_dir (disk w) (dst ++ removelast r) = true →
  (∀ f, f ∈ files → ∃ data, fs0 !! (src ++ r ++ [f]) = Some (EFile data)) →
  ∃ fs', CopyOperation.visit (CopyOperation.mk src dst) (src ++ r) dirs files w
         = Some (Ret tt, with_disk w fs') ∧
    Inv fs' ∧ Fs.is_dir fs' (dst ++ r) = true ∧
    (∀ p, ¬ (dst ++ r) `prefix_of` p → fs' !! p = disk w !! p) ∧
    (∀ f data, f ∈ files → fs0 !! (src ++ r ++ [f]) = Some (EFile data) →
       fs' !! (dst ++ r ++ [f]) = Some (EFile data)).
Proof.
  intros HI Hdir Hpar Hfiles.
  destruct (visit_mkdir _ _ HI Hdir Hpar) as (fsA & Hmk & HIA & HdA & HfrA).
  destruct (copy_files_ok (with_disk w fsA) r files HIA HdA Hfiles)
    as (fs' & Hrun & HI' & Hd' & Hfr' & Hcp).
  exists fs'. split_and!; try done.
  - unfold CopyOperation.visit. cbn [CopyOperation.src CopyOperation.dst].
    rewrite relative_to_app. unfold Path.joinpath.
    rewrite (bind_Ret _ _ _ tt (with_disk w fsA)); [done|].
    unfold sys. cbv beta zeta. by rewrite Hmk.
  - intros p Hp. rewrite Hfr' by done. apply HfrA. by intros ->.
Qed.

(** The walk below one directory of the source, given enough fuel for the
    depth of the source tree. *)
Lemma walk_ok fuel : ∀ r w,
  Inv (disk w) → fs0 !! (src ++ r) = Some EDir →
  Fs.is_dir (disk w) (dst ++ removelast r) = true →
  (Fs.height fs0 < fuel + length (src ++ r))%nat →
  ∃ fs', os_walk_for fuel (src ++ r) (CopyOperation.visit (CopyOperation.mk src dst)) w
         = Some (Ret tt, with_disk w fs') ∧
    Inv fs' ∧ Fs.is_dir fs' (dst ++ r) = true ∧
    (∀ p, ¬ (dst ++ r) `prefix_of` p → fs' !! p = disk w !! p) ∧
    (∀ r' e, r' ≠ [] → fs0 !! (src ++ r ++ r') = Some e →
       fs' !! (dst ++ r ++ r') = Some e).
Proof.
  induction fuel as [|n IH]; intros r w HI Hdir Hpar Hfuel.
  { apply height_ge in Hdir. lia. }
  pose proof HI as [HF _].
  cbn [os_walk_for].
  destruct (Fs.scandir (disk w) (src ++ r)) as [ents|] eqn:Hscan; last first.
  { unfold Fs.scandir in Hscan.
    rewrite stat_lookup, HF, Hdir in Hscan by apply src_lookup_ne. done. }
  pose proof (scandir_Some _ _ _ Hscan) as Hents.
  assert (Hdirs : ∀ d, d ∈ Fs.dir_names ents ↔ fs0 !! (src ++ r ++ [d]) = Some EDir).
  { intros d. by rewrite dir_names_spec, Hents, <- app_assoc, HF. }
  assert (Hfiles : ∀ f, f ∈ Fs.file_names ents ↔
                        ∃ data, fs0 !! (src ++ r ++ [f]) = Some (EFile data)).
  { intros f. rewrite file_names_spec. setoid_rewrite Hents.
    setoid_rewrite <- app_assoc. by setoid_rewrite HF. }
  destruct (visit_ok w r (Fs.dir_names ents) (Fs.file_names ents) HI Hdir Hpar)
    as (fsB & Hvisit & HIB & HdB & HfrB & HcpB); [by intros f ?%Hfiles|].
  rewrite (bind_Ret _ _ _ _ _ Hvisit).
  destruct (for_each_invariant
    (λ w', ∃ fs', w' = with_disk w fs' ∧ Inv fs' ∧ Fs.is_dir fs' (dst ++ r) = true ∧
                  (∀ p, ¬ (dst ++ r) `prefix_of` p → fs' !! p = disk w !! p) ∧
                  (∀ f data, fs0 !! (src ++ r ++ [f]) = Some (EFile data) →
                             fs' !! (dst ++ r ++ [f]) = Some (EFile data)))
    (λ d w', ∀ r' e, fs0 !! (src ++ r ++ [d] ++ r') = Some e →
                     disk w' !! (dst ++ r ++ [d] ++ r') = Some e)
    (Fs.dir_names ents)
    (λ d, os_walk_for n (Path.joinpath (src ++ r) [d])
            (CopyOperation.visit (CopyOperation.mk src dst)))) with (with_disk w fsB)
    as (w' & Hrun & (fs' & -> & HI' & Hd' & Hfr' & Hcp') & HQ).
  - intros d w1 Hd (fs1 & -> & HI1 & Hd1 & Hfr1 & Hcp1).
    apply Hdirs in Hd.
    destruct (IH (r ++ [d]) (with_disk w fs1)) as (fs2 & Hwalk & HI2 & Hd2 & Hfr2 & Hcp2).
    { done. }
    { done. }
    { by rewrite removelast_last. }
    { rewrite !length_app in *. simpl. lia. }
    assert (HQd : ∀ r' e, fs0 !! (src ++ r ++ [d] ++ r') = Some e →
                          fs2 !! (dst ++ r ++ [d] ++ r') = Some e).
    { intros r' e He. destruct (decide (r' = [])) as [->|Hr'].
      - rewrite app_nil_r in *. rewrite Hd in He. injection He as <-.
        apply is_dir_stat in Hd2.
        by rewrite stat_lookup in Hd2 by apply dst_lookup_ne.
      - specialize (Hcp2 r' e Hr'). rewrite <- !app_assoc in Hcp2. by apply Hcp2. }
    assert (Hout : ∀ p, ¬ (dst ++ r) `prefix_of` p → ¬ (dst ++ r ++ [d]) `prefix_of` p).
    { intros p Hp Hp'. apply Hp. rewrite app_assoc in Hp'. by apply prefix_app_l in Hp'. }
    exists (with_disk w fs2). split_and!.
    + unfold Path.joinpath. by rewrite <- app_assoc.
    + exists fs2. split; [done|]. split_and!; [done|..].
      * apply is_dir_stat in Hd1. apply is_dir_stat.
        rewrite stat_lookup in * by apply dst_lookup_ne.
        rewrite Hfr2; [done|]. rewrite app_assoc. apply prefix_snoc_not.
      * intros p Hp. rewrite Hfr2 by (by apply Hout).
        by apply Hfr1.
      * intros f data Hf. rewrite Hfr2; [by apply Hcp1|].
        intros Hpre. do 2 apply prefix_app_inv in Hpre.
        apply prefix_cons_inv_1 in Hpre as ->. congruence.
    + done.
    + intros y Hy r' e He. simpl disk in *. destruct (decide (y = d)) as [->|Hne].
      * by apply HQd.
      * rewrite Hfr2; [by apply Hy|]. intros Hpre.
        do 2 apply prefix_app_inv in Hpre. by apply prefix_cons_inv_1 in Hpre.
  - exists fsB. split_and!; try done. intros f data Hf. apply HcpB; [|done].
    apply Hfiles. eauto.
  - exists fs'. split_and!; try done. intros r' e Hr' He.
    destruct r' as [|x r'']; [done|]. change (x :: r'') with ([x] ++ r'') in *.
    assert (Hx : ∃ ex, fs0 !! (src ++ r ++ [x]) = Some ex ∧ (r'' ≠ [] → ex = EDir)).
    { destruct (decide (r'' = [])) as [->|Hr''].
      - rewrite app_nil_r in He. exists e. by split.
      - exists EDir. split; [|done].
        apply (wf_above fs0 (src ++ r ++ [x]) r'' e); [exact Hwf| |exact Hr''|].
        + pose proof src_not_base. by destruct src.
        + by rewrite <- !app_assoc. }
    destruct Hx as ([data|] & Hx & Hkind).
    + destruct (decide (r'' = [])) as [->|Hr'']; [|by specialize (Hkind Hr'')].
      rewrite app_nil_r in *. rewrite Hx in He. injection He as <-. by apply Hcp'.
    + apply Hdirs in Hx. by apply (HQ x Hx).
Qed.

End copy_tree.

Lemma forallb_map_to_list (fs : FS) (f : path * entry → bool) p e :
  forallb f (map_to_list fs) = true → fs !! p = Some e → f (p, e) = true.
Proof.
  intros H Hl. eapply forallb_forall in H; [done|].
  by apply list_elem_of_In, elem_of_map_to_list.
Qed.

Lemma wfb_sound fs : wfb fs = true → Fs.wf fs.
Proof.
  intros H p e Hl. apply (forallb_map_to_list _ _ _ _ H) in Hl. simpl in Hl.
  by destruct p.
Qed.

Lemma no_file_on_pathb_sound fs p : no_file_on_pathb fs p = true → no_file_on_path fs p.
Proof.
  intros H q data Hq Hl. apply (forallb_map_to_list _ _ _ _ H) in Hl. simpl in Hl.
  by rewrite bool_decide_eq_true_2 in Hl.
Qed.

Lemma compatibleb_sound fs src dst : compatibleb fs src dst = true → compatible fs src dst.
Proof.
  intros H r e e' He He'. apply (forallb_map_to_list _ _ _ _ H) in He. simpl in He.
  rewrite relative_to_app, He' in He. by destruct e, e'.
Qed.

Section copy_claim.
Import CopyOperation.

(** C1, as the code has it.  Let the source be an existing directory of a
    well-formed file system, let neither of source and destination lie at
    or below the other, let no component of the destination path be a
    file, and let every entry already below the destination have the kind
    of the source entry with the same relative path.  Then, with fuel for
    the depth of the tree, [CopyOperation.execute] returns normally and
    every entry of the source tree has an equal entry at the same relative
    path below the destination: every directory is a directory there,
    every file a file with the same bytes.  The source tree is unchanged
    and the only output is the success line. *)
Theorem copy_reproduces_tree (fuel : nat) (c : CopyOperation.t) (w : world) :
  Fs.wf (disk w) →
  Fs.is_dir (disk w) (src c) = true →
  ¬ src c `prefix_of` dst c →
  ¬ dst c `prefix_of` src c →
  no_file_on_path (disk w) (dst c) →
  compatible (disk w) (src c) (dst c) →
  (Fs.height (disk w) < fuel)%nat →
  ∃ w', execute fuel c w = Some (Ret tt, w') ∧
    (∀ r e, disk w !! (src c ++ r) = Some e → disk w' !! (dst c ++ r) = Some e) ∧
    (∀ r, disk w' !! (src c ++ r) = disk w !! (src c ++ r)) ∧
    stdout w' = stdout w ++
      [Logger.format_line (clock w (ticks w)) "INF" "Copy operation completed successfully."].
Proof.
  destruct c as [s d]. cbn [src dst]. intros Hwf Hdir Hsd Hds Hnf Hcompat Hfuel.
  assert (s ≠ []) as Hs by (intros ->; apply Hsd, prefix_nil).
  assert (d ≠ []) as Hd by (intros ->; apply Hds, prefix_nil).
  destruct (mkdir_parents_ok _ _ Hnf) as (fsA & Hmk & HdA & Hframe & _).
  assert (copy_inv s d (disk w) fsA) as HIA.
  { split.
    - intros r. apply Hframe. intros H. by apply Hsd, (prefix_app_l _ _ r).
    - intros r e' Hr He'. left. rewrite <- He'. symmetry. apply Hframe.
      intros H%prefix_length. rewrite length_app in H. destruct r; [done|simpl in H; lia]. }
  apply is_dir_stat in Hdir as Hst. rewrite stat_lookup in Hst by done.
  destruct (walk_ok s d (disk w) Hwf Hsd Hds Hcompat fuel [] (with_disk w fsA))
    as (fs' & Hwalk & [HF' _] & Hd' & _ & Hcp).
  { done. }
  { by rewrite app_nil_r. }
  { by rewrite app_nil_r. }
  { lia. }
  rewrite app_nil_r in Hwalk, Hd'.
  exists (logged (with_disk w fs') "INF" "Copy operation completed successfully.").
  split_and!.
  - unfold execute. cbn [src dst].
    rewrite (bind_Ret (ask _) _ _ true w) by (unfold ask; by rewrite (is_dir_exists _ _ Hdir)).
    cbv beta. change (negb true) with false. cbv iota.
    rewrite (bind_Ret (sys _) _ _ tt (with_disk w fsA))
      by (unfold sys; cbv beta zeta; by rewrite Hmk).
    by rewrite (bind_Ret _ _ _ _ _ Hwalk).
  - intros r e He. simpl. destruct (decide (r = [])) as [->|Hr].
    + rewrite app_nil_r in *. apply is_dir_stat in Hd'.
      rewrite stat_lookup in Hd' by done. congruence.
    + by apply (Hcp r e).
  - intros r. apply HF'.
  - done.
Qed.

Lemma copy_reproduces_tree_witness :
  ∃ w', execute 5 (mk ["tmp"; "src"] ["tmp"; "dst"]) scenario_world = Some (Ret tt, w') ∧
    (∀ r e, disk scenario_world !! (["tmp"; "src"] ++ r) = Some e →
            disk w' !! (["tmp"; "dst"] ++ r) = Some e) ∧
    (∀ r, disk w' !! (["tmp"; "src"] ++ r) = disk scenario_world !! (["tmp"; "src"] ++ r)) ∧
    stdout w' = ["[12:00:00] [INF] - Copy operation completed successfully."].
Proof.
  apply (copy_reproduces_tree 5 (mk ["tmp"; "src"] ["tmp"; "dst"]) scenario_world).
  - apply wfb_sound. vm_compute. reflexivity.
  - reflexivity.
  - intros [k Hk]. discriminate.
  - intros [k Hk]. discriminate.
  - apply no_file_on_pathb_sound. vm_compute. reflexivity.
  - apply compatibleb_sound. vm_compute. reflexivity.
  - vm_compute. lia.
Defined.

(** C1 as stated fails when the destination already holds a directory
    under the name of a source file: [shutil.copy2] puts the copy inside
    that directory, so no file with the source's bytes stands at the same
    relative path, and nothing is logged but success. *)
Lemma copy_into_clashing_directory :
  Fs.is_dir (disk clash_world) ["s"] = true ∧
  execute 2 (mk ["s"] ["d"]) clash_world = Some (Ret tt, clash_after) ∧
  disk clash_world !! (["s"] ++ ["a"]) = Some (EFile [x61]) ∧
  disk clash_after !! (["d"] ++ ["a"]) = Some EDir ∧
  ¬ (∀ r e, disk clash_world !! (["s"] ++ r) = Some e →
            disk clash_after !! (["d"] ++ r) = Some e).
Proof.
  split; [reflexivity|]. split; [vm_compute; reflexivity|].
  split; [reflexivity|]. split; [reflexivity|].
  intros H. specialize (H ["a"] (EFile [x61]) eq_refl). vm_compute in H. discriminate.
Qed.

(** The other hypotheses matter too.  A destination two levels below the
    source feeds the walk with the directories it creates: the walk never
    comes back (here with fuel 12; Python ends this run with an exception
    when the interpreter or the system reaches a limit).  A destination
    equal to the source makes every copy fail with [SameFileError], which
    is logged. *)
Example copy_below_source_descends :
  execute 12 (mk ["d"] ["d"; "x"; "y"]) small_world = None.
Proof. vm_compute. reflexivity. Qed.

Example copy_onto_itself :
  execute 2 (mk ["s"] ["s"]) blocked_world
  = Some (Ret tt,
          World (disk blocked_world)
                [ "[12:00:00] [ERR] - Failed to copy 's/a.txt': PosixPath('s/a.txt') and PosixPath('s/a.txt') are the same file";
                  "[12:00:00] [INF] - Copy operation completed successfully." ]
                sample_clock 2).
Proof. vm_compute. reflexivity. Qed.

End copy_claim.

(** * Well-formedness is preserved *)

Lemma parent_ne (p : path) : p ≠ [] → Path.parent p ≠ p.
Proof.
  intros Hp H. apply (f_equal length) in H. unfold Path.parent in H.
  destruct p as [|x p] using rev_ind; [done|].
  rewrite removelast_last, length_app in H. simpl in H. lia.
Qed.

Lemma parent_prefix (p : path) : Path.parent p `prefix_of` p.
Proof.
  destruct p as [|x p] using rev_ind; [done|].
  unfold Path.parent. rewrite removelast_last. by apply prefix_app_r.
Qed.

Lemma is_dir_insert_ne fs (p q : path) e :
  q ≠ p → Fs.is_dir (<[p := e]> fs) q = Fs.is_dir fs q.
Proof. intros Hne. unfold Fs.is_dir, Fs.stat. destruct q; [done|]. by rewrite lookup_insert_ne. Qed.

Lemma wf_insert fs (p : path) e :
  Fs.wf fs → p ≠ [] → Fs.is_dir fs (Path.parent p) = true → Fs.is_dir fs p = false →
  Fs.wf (<[p := e]> fs).
Proof.
  intros Hwf Hp Hpar Hnd q e' Hq. destruct (decide (q = p)) as [->|Hne].
  - split; [done|]. rewrite is_dir_insert_ne; [done|]. by apply parent_ne.
  - rewrite lookup_insert_ne in Hq by done. destruct (Hwf q e' Hq) as [Hq1 Hq2].
    split; [done|]. rewrite is_dir_insert_ne; [done|]. intros Heq. congruence.
Qed.

Lemma wf_delete fs (p : path) :
  Fs.wf fs → Fs.is_dir fs p = false → Fs.wf (delete p fs).
Proof.
  intros Hwf Hnd q e Hq. apply lookup_delete_Some in Hq as [Hne Hq].
  destruct (Hwf q e Hq) as [Hq1 Hq2]. split; [done|].
  unfold Fs.is_dir, Fs.stat in *. destruct (Path.parent q) as [|x r] eqn:Hpq; [done|].
  rewrite lookup_delete_ne; [done|]. intros ->. congruence.
Qed.

Lemma wf_rmtree fs (p : path) :
  Fs.wf fs → Fs.wf (filter (λ kv : path * entry, ¬ p `prefix_of` kv.1) fs).
Proof.
  intros Hwf q e [Hq Hnp]%map_lookup_filter_Some. simpl in Hnp.
  destruct (Hwf q e Hq) as [Hq1 Hq2]. split; [done|].
  apply is_dir_stat in Hq2. apply is_dir_stat.
  destruct (Path.parent q) as [|x r] eqn:Hpq; [done|]. simpl in *.
  apply map_lookup_filter_Some. split; [done|]. simpl. intros Hpre. apply Hnp.
  etrans; [done|]. rewrite <- Hpq. apply parent_prefix.
Qed.

Lemma os_mkdir_wf fs p : Fs.wf fs → Fs.wf (Fs.os_mkdir fs p).2.
Proof.
  intros Hwf. unfold Fs.os_mkdir. destruct (Fs.stat fs p) eqn:Hst; [done|].
  destruct (Fs.stat fs (Path.parent p)) as [[]|] eqn:Hsp;
    [done| |done]. simpl.
  apply wf_insert; [done|by destruct p|by apply is_dir_stat|].
  unfold Fs.is_dir. by rewrite Hst.
Qed.

Lemma mkdir_exist_ok_wf fs p : Fs.wf fs → Fs.wf (Fs.mkdir_exist_ok fs p).2.
Proof.
  intros Hwf. unfold Fs.mkdir_exist_ok. pose proof (os_mkdir_wf fs p Hwf) as H.
  destruct (Fs.os_mkdir fs p) as [[[]|e] fs']; [done|]. simpl in H.
  destruct e; try done; by destruct (Fs.is_dir fs' p).
Qed.

Lemma mkdir_parents_rev_wf rp fs : Fs.wf fs → Fs.wf (Fs.mkdir_parents_rev rp fs).2.
Proof.
  revert fs. induction rp as [|x rp IH]; intros fs Hwf; cbn [Fs.mkdir_parents_rev].
  - pose proof (os_mkdir_wf fs (reverse []) Hwf) as H.
    destruct (Fs.os_mkdir fs (reverse [])) as [[[]|e] fs']; [done|]. simpl in H.
    destruct e; try done; by destruct (Fs.is_dir fs' (reverse [])).
  - pose proof (os_mkdir_wf fs (reverse (x :: rp)) Hwf) as H.
    destruct (Fs.os_mkdir fs (reverse (x :: rp))) as [[[]|e] fs']; [done|]. simpl in H.
    destruct e; try done; try by destruct (Fs.is_dir fs' (reverse (x :: rp))).
    pose proof (IH fs' H) as H'.
    destruct (Fs.mkdir_parents_rev rp fs') as [[[]|e] fs'']; [|done]. simpl in H'.
    by apply mkdir_exist_ok_wf.
Qed.

Lemma mkdir_parents_wf fs p : Fs.wf fs → Fs.wf (Fs.mkdir_parents fs p).2.
Proof. apply mkdir_parents_rev_wf. Qed.

Lemma unlink_wf fs p : Fs.wf fs → Fs.wf (Fs.unlink_missing_ok fs p).2.
Proof.
  intros Hwf. unfold Fs.unlink_missing_ok. destruct (Fs.stat fs p) as [[data|]|] eqn:Hst; [|done..].
  simpl. apply wf_delete; [done|]. unfold Fs.is_dir. by rewrite Hst.
Qed.

Lemma rmtree_wf fs p : Fs.wf fs → Fs.wf (Fs.rmtree fs p).2.
Proof.
  intros Hwf. unfold Fs.rmtree. destruct (Fs.stat fs p) as [[data|]|]; [done| |done].
  destruct p; by apply wf_rmtree.
Qed.

Lemma copyfile_wf fs p q b : Fs.wf fs → Fs.wf (Fs.copyfile fs p q b).2.
Proof.
  intros Hwf. unfold Fs.copyfile.
  destruct (bool_decide (p = q) && Fs.exists_ fs p); [done|].
  destruct (Fs.stat fs p) as [[data|]|]; [|done..].
  destruct (Fs.stat fs q) as [[data'|]|] eqn:Hq; [| done |].
  - simpl. assert (q ≠ []) as Hne by (by intros ->).
    rewrite stat_lookup in Hq by done. destruct (Hwf q _ Hq) as [_ Hpar].
    apply wf_insert; [done..|]. unfold Fs.is_dir. rewrite stat_lookup by done. by rewrite Hq.
  - destruct (Fs.stat fs (Path.parent q)) as [[]|] eqn:Hpq; [done| |done]. simpl.
    apply wf_insert; [done|by intros ->|by apply is_dir_stat|].
    unfold Fs.is_dir. by rewrite Hq.
Qed.

Lemma copy2_wf fs p q : Fs.wf fs → Fs.wf (Fs.copy2 fs p q).2.
Proof. unfold Fs.copy2. destruct (Fs.is_dir fs q); apply copyfile_wf. Qed.

Section keeps.
Context {A B : Type}.

Lemma keeps_wf_ret (a : A) : keeps_wf (mret a : M A).
Proof. by intros w r w' Hwf [= <- <-]. Qed.

Lemma keeps_wf_bind (m : M A) (k : A → M B) :
  keeps_wf m → (∀ a, keeps_wf (k a)) → keeps_wf (m ≫= k).
Proof.
  intros Hm Hk w r w' Hwf. unfold mbind, M_bind.
  destruct (m w) as [[[a|e] w1]|] eqn:Hmw; [|intros [= <- <-]|done].
  - apply (Hk a). by apply (Hm w _ _ Hwf Hmw).
  - by apply (Hm w _ _ Hwf Hmw).
Qed.

Lemma keeps_wf_try (m : M A) (h : exn → M A) :
  keeps_wf m → (∀ e, keeps_wf (h e)) → keeps_wf (try_except m h).
Proof.
  intros Hm Hh w r w' Hwf. unfold try_except.
  destruct (m w) as [[[a|e] w1]|] eqn:Hmw; [intros [= <- <-]| |done].
  - by apply (Hm w _ _ Hwf Hmw).
  - apply (Hh e). by apply (Hm w _ _ Hwf Hmw).
Qed.

Lemma keeps_wf_ask (f : FS → A) : keeps_wf (ask f).
Proof. by intros w r w' Hwf [= <- <-]. Qed.

End keeps.

Lemma keeps_wf_sys (f : FS → outcome unit * FS) :
  (∀ fs, Fs.wf fs → Fs.wf (f fs).2) → keeps_wf (sys f).
Proof. intros Hf w r w' Hwf [= <- <-]. by apply Hf. Qed.

Lemma keeps_wf_log level msg : keeps_wf (Logger.log level msg).
Proof. intros w r w' Hwf. rewrite log_spec. by intros [= <- <-]. Qed.

Lemma keeps_wf_raise {A} e : keeps_wf (raise e : M A).
Proof. by intros w r w' Hwf [= <- <-]. Qed.

Lemma keeps_wf_for_each {A} (l : list A) (f : A → M unit) :
  (∀ x, keeps_wf (f x)) → keeps_wf (for_each l f).
Proof.
  intros Hf. induction l as [|x l IH]; [apply keeps_wf_ret|].
  apply keeps_wf_bind; [apply Hf|done].
Qed.

Lemma keeps_wf_walk fuel top body :
  (∀ root dirs files, keeps_wf (body root dirs files)) →
  keeps_wf (os_walk_for fuel top body).
Proof.
  intros Hbody. revert top. induction fuel as [|n IH]; intros top; [done|].
  intros w r w' Hwf. cbn [os_walk_for].
  destruct (Fs.scandir (disk w) top) as [ents|]; [|by intros [= <- <-]].
  revert w r w' Hwf. apply keeps_wf_bind; [apply Hbody|].
  intros _. apply keeps_wf_for_each. intros d. apply IH.
Qed.

Lemma keeps_wf_copy fuel c : keeps_wf (CopyOperation.execute fuel c).
Proof.
  apply keeps_wf_bind; [apply keeps_wf_ask|]. intros [|]; simpl; [|apply keeps_wf_log].
  apply keeps_wf_bind; [apply keeps_wf_sys; intros; by apply mkdir_parents_wf|]. intros _.
  apply keeps_wf_bind; [|intros _; apply keeps_wf_log].
  apply keeps_wf_walk. intros root dirs files. unfold CopyOperation.visit.
  destruct (Path.relative_to root (CopyOperation.src c)); [|apply keeps_wf_raise].
  apply keeps_wf_bind; [apply keeps_wf_sys; intros; by apply mkdir_parents_wf|]. intros _.
  apply keeps_wf_for_each. intros f. apply keeps_wf_try; [|intros e; apply keeps_wf_log].
  apply keeps_wf_sys. intros. by apply copy2_wf.
Qed.

Lemma keeps_wf_delete d : keeps_wf (DeleteOperation.execute d).
Proof.
  apply keeps_wf_bind; [apply keeps_wf_ask|]. intros [|]; simpl; [|apply keeps_wf_log].
  apply keeps_wf_try; [|intros e; apply keeps_wf_log].
  apply keeps_wf_bind; [apply keeps_wf_ask|]. intros isd.
  destruct (isd && DeleteOperation.recursive d).
  - apply keeps_wf_bind; [apply keeps_wf_sys; intros; by apply rmtree_wf|].
    intros _. apply keeps_wf_log.
  - apply keeps_wf_bind; [apply keeps_wf_sys; intros; by apply unlink_wf|].
    intros _. apply keeps_wf_log.
Qed.

Lemma keeps_wf_run fuel t : keeps_wf (MigrationTask.run fuel t).
Proof.
  apply keeps_wf_bind; [apply keeps_wf_log|]. intros _.
  apply keeps_wf_bind; [|intros _; apply keeps_wf_log].
  apply keeps_wf_for_each. intros [c|d]; [apply keeps_wf_copy|apply keeps_wf_delete].
Qed.

(** Every run of the migration, whether it returns or raises, leaves a
    well-formed file system well formed. *)
Lemma keeps_wf_migration fuel m : keeps_wf (DrakensangMigrator.perform_migration fuel m).
Proof.
  apply keeps_wf_bind; [apply keeps_wf_log|]. intros _.
  apply keeps_wf_bind; [apply keeps_wf_ask|]. intros [|]; cbn [negb]; [|apply keeps_wf_log].
  apply keeps_wf_bind.
  { apply keeps_wf_bind; [apply keeps_wf_ask|]. intros [|]; cbn [negb]; [apply keeps_wf_ret|].
    apply keeps_wf_bind; [apply keeps_wf_log|]. intros _.
    apply keeps_wf_sys. intros. by apply mkdir_parents_wf. }
  intros _. apply keeps_wf_bind; [|intros _; apply keeps_wf_log].
  apply keeps_wf_for_each. intros t. apply keeps_wf_run.
Qed.

(** * Relations kept by every step *)

Section steps.
Context (R : world → world → Prop) `{!PreOrder R}.

Lemma steps_ret {A} (a : A) : steps R (mret a : M A).
Proof. intros w r w' [= <- <-]. reflexivity. Qed.

Lemma steps_raise {A} e : steps R (raise e : M A).
Proof. intros w r w' [= <- <-]. reflexivity. Qed.

Lemma steps_ask {A} (f : FS → A) : steps R (ask f).
Proof. intros w r w' [= <- <-]. reflexivity. Qed.

Lemma steps_bind {A B} (m : M A) (k : A → M B) :
  steps R m → (∀ a, steps R (k a)) → steps R (m ≫= k).
Proof.
  intros Hm Hk w r w'. unfold mbind, M_bind.
  destruct (m w) as [[[a|e] w1]|] eqn:Hmw; [|intros [= <- <-]|done].
  - intros H. etrans; [by apply (Hm w _ _ Hmw)|by apply (Hk a w1 _ _ H)].
  - by apply (Hm w _ _ Hmw).
Qed.

Lemma steps_try {A} (m : M A) (h : exn → M A) :
  steps R m → (∀ e, steps R (h e)) → steps R (try_except m h).
Proof.
  intros Hm Hh w r w'. unfold try_except.
  destruct (m w) as [[[a|e] w1]|] eqn:Hmw; [intros [= <- <-]| |done].
  - by apply (Hm w _ _ Hmw).
  - intros H. etrans; [by apply (Hm w _ _ Hmw)|by apply (Hh e w1 _ _ H)].
Qed.

Lemma steps_for_each {A} (l : list A) (f : A → M unit) :
  (∀ x, steps R (f x)) → steps R (for_each l f).
Proof.
  intros Hf. induction l as [|x l IH]; [apply steps_ret|].
  apply steps_bind; [apply Hf|done].
Qed.

Lemma steps_walk fuel top body :
  (∀ root dirs files, steps R (body root dirs files)) →
  steps R (os_walk_for fuel top body).
Proof.
  intros Hbody. revert top. induction fuel as [|n IH]; intros top; [done|].
  intros w r w'. cbn [os_walk_for].
  destruct (Fs.scandir (disk w) top) as [ents|]; [|intros [= <- <-]; reflexivity].
  revert w r w'. apply steps_bind; [apply Hbody|].
  intros _. apply steps_for_each. intros d. apply IH.
Qed.

End steps.

Lemma steps_weaken {A} (R R' : world → world → Prop) (m : M A) :
  (∀ w w', R w w' → R' w w') → steps R m → steps R' m.
Proof. intros HR Hm w r w' H. by apply HR, (Hm w r w'). Qed.

Section on_disk.
Context (D : FS → FS → Prop) `{!PreOrder D}.

#[local] Instance on_disk_preorder : PreOrder (on_disk D).
Proof.
  split.
  - intros w. unfold on_disk. reflexivity.
  - intros w1 w2 w3. unfold on_disk. intros. by etrans.
Qed.

Lemma steps_sys (f : FS → outcome unit * FS) :
  (∀ fs, D fs (f fs).2) → steps (on_disk D) (sys f).
Proof. intros Hf w r w' [= <- <-]. apply Hf. Qed.

Lemma steps_log level msg : steps (on_disk D) (Logger.log level msg).
Proof. intros w r w'. rewrite log_spec. intros [= <- <-]. unfold on_disk. reflexivity. Qed.

End on_disk.

#[local] Instance grows_preorder : PreOrder grows.
Proof.
  split.
  - intros fs q e H. exists e. split; [done|]. by destruct e.
  - intros fs1 fs2 fs3 H12 H23 q e H.
    destruct (H12 q e H) as (e2 & H2 & Hk2). destruct (H23 q e2 H2) as (e3 & H3 & Hk3).
    exists e3. split; [done|]. by destruct e, e2, e3.
Qed.

#[local] Instance shrinks_preorder : PreOrder shrinks.
Proof. split; [by intros fs q e|]. intros fs1 fs2 fs3 H12 H23 q e H. by apply H12, H23. Qed.

#[local] Instance same_outside_preorder P : PreOrder (same_outside P).
Proof.
  split; [by intros fs q|]. intros fs1 fs2 fs3 H12 H23 q Hq.
  by rewrite (H23 q Hq), (H12 q Hq).
Qed.

#[local] Instance keeps_dirs_preorder : PreOrder keeps_dirs.
Proof. split; [by intros fs q|]. intros fs1 fs2 fs3 H12 H23 q H. by apply H23, H12. Qed.

#[local] Instance console_extends_preorder : PreOrder console_extends.
Proof.
  split.
  - intros w. exists []. by rewrite app_nil_r, Nat.add_0_r.
  - intros w1 w2 w3 (l1 & Hs1 & Ht1 & Hc1) (l2 & Hs2 & Ht2 & Hc2).
    exists (l1 ++ l2). rewrite Hs2, Hs1, Ht2, Ht1, Hc2, Hc1, length_app, app_assoc.
    split_and!; [done|lia|done].
Qed.

Lemma same_outside_weaken (P P' : path → Prop) fs fs' :
  (∀ q, P q → P' q) → same_outside P fs fs' → same_outside P' fs fs'.
Proof. intros HP H q Hq. apply H. naive_solver. Qed.

Lemma grows_keeps_dirs fs fs' : grows fs fs' → keeps_dirs fs fs'.
Proof. intros H q Hq. destruct (H q _ Hq) as (e' & He' & Hk). by destruct e'. Qed.

Lemma grows_insert_fresh fs (p : path) e : fs !! p = None → grows fs (<[p := e]> fs).
Proof.
  intros Hp q e' Hq. exists e'. rewrite lookup_insert_ne by congruence.
  split; [done|]. by destruct e'.
Qed.

(** ** The file-system calls *)

Lemma os_mkdir_grows fs p : grows fs (Fs.os_mkdir fs p).2.
Proof.
  unfold Fs.os_mkdir. destruct (Fs.stat fs p) eqn:Hst; [reflexivity|].
  destruct (Fs.stat fs (Path.parent p)) as [[]|];
    [reflexivity| |reflexivity]. simpl.
  apply grows_insert_fresh. by destruct p.
Qed.

Lemma os_mkdir_outside fs p : same_outside (λ q, q = p) fs (Fs.os_mkdir fs p).2.
Proof.
  unfold Fs.os_mkdir. destruct (Fs.stat fs p) eqn:Hst; [reflexivity|].
  destruct (Fs.stat fs (Path.parent p)) as [[]|];
    [reflexivity| |reflexivity]. simpl.
  intros q Hq. by apply lookup_insert_ne.
Qed.

Lemma os_mkdir_Ret_dir fs p fs' :
  Fs.os_mkdir fs p = (Ret tt, fs') → Fs.is_dir fs' p = true.
Proof.
  unfold Fs.os_mkdir. destruct (Fs.stat fs p) eqn:Hst; [done|].
  destruct (Fs.stat fs (Path.parent p)) as [[]|];
    [done| |done]. intros [= <-].
  apply is_dir_stat. destruct p; [done|]. apply lookup_insert_eq.
Qed.

(** [mkdir_exist_ok] and [mkdir_parents_rev] end like [os.mkdir] or by
    checking [is_dir]: a relation that [os.mkdir] keeps is kept by both. *)
Section mkdir.
Context (D : FS → FS → Prop) `{!PreOrder D}.

Lemma mkdir_exist_ok_keeps fs p :
  D fs (Fs.os_mkdir fs p).2 → D fs (Fs.mkdir_exist_ok fs p).2.
Proof.
  unfold Fs.mkdir_exist_ok. destruct (Fs.os_mkdir fs p) as [[[]|e] fs']; [done|]. simpl.
  destruct e; try done; by destruct (Fs.is_dir fs' p).
Qed.

Lemma mkdir_parents_rev_keeps rp :
  (∀ fs q, q `suffix_of` rp → D fs (Fs.os_mkdir fs (reverse q)).2) →
  ∀ fs, D fs (Fs.mkdir_parents_rev rp fs).2.
Proof.
  induction rp as [|x rp IH]; intros Hos fs; cbn [Fs.mkdir_parents_rev].
  - pose proof (Hos fs [] ltac:(done)) as H.
    destruct (Fs.os_mkdir fs (reverse [])) as [[[]|e] fs']; [done|]. simpl in H.
    destruct e; try done; by destruct (Fs.is_dir fs' (reverse [])).
  - pose proof (Hos fs (x :: rp) ltac:(done)) as H.
    destruct (Fs.os_mkdir fs (reverse (x :: rp))) as [[[]|e] fs']; [done|]. simpl in H.
    destruct e; try done; try by destruct (Fs.is_dir fs' (reverse (x :: rp))).
    assert (D fs' (Fs.mkdir_parents_rev rp fs').2) as H'.
    { apply IH. intros fs0 q Hq. apply Hos. by apply suffix_cons_r. }
    destruct (Fs.mkdir_parents_rev rp fs') as [[[]|e] fs'']; simpl in H'; [|by etrans].
    etrans; [done|]. etrans; [done|]. apply mkdir_exist_ok_keeps. apply Hos. done.
Qed.

End mkdir.

Lemma mkdir_parents_grows fs p : grows fs (Fs.mkdir_parents fs p).2.
Proof.
  unfold Fs.mkdir_parents. apply (mkdir_parents_rev_keeps grows).
  intros. apply os_mkdir_grows.
Qed.

Lemma mkdir_parents_outside fs p :
  same_outside (λ q, q `prefix_of` p) fs (Fs.mkdir_parents fs p).2.
Proof.
  unfold Fs.mkdir_parents.
  apply (mkdir_parents_rev_keeps (same_outside (λ q, q `prefix_of` p))). intros fs0 q Hq.
  eapply same_outside_weaken; [|apply os_mkdir_outside]. intros q' ->. simpl.
  apply suffix_prefix_reverse in Hq. by rewrite reverse_involutive in Hq.
Qed.

Lemma mkdir_exist_ok_Ret_dir fs p fs' :
  Fs.mkdir_exist_ok fs p = (Ret tt, fs') → Fs.is_dir fs' p = true.
Proof.
  unfold Fs.mkdir_exist_ok. destruct (Fs.os_mkdir fs p) as [[[]|e] fs1] eqn:Hos.
  - intros [= <-]. by apply (os_mkdir_Ret_dir fs).
  - destruct e; try done; destruct (Fs.is_dir fs1 p) eqn:Hd; try done; by intros [= <-].
Qed.

(** When [mkdir(parents=True, exist_ok=True)] returns, the path is a
    directory. *)
Lemma mkdir_parents_Ret_dir fs p fs' :
  Fs.mkdir_parents fs p = (Ret tt, fs') → Fs.is_dir fs' p = true.
Proof.
  unfold Fs.mkdir_parents. rewrite <- (reverse_involutive p) at 2.
  generalize (reverse p). clear p. intros rp. revert fs fs'.
  destruct rp as [|x rp]; intros fs fs'; cbn [Fs.mkdir_parents_rev].
  - destruct (Fs.os_mkdir fs (reverse [])) as [[[]|e] fs1] eqn:Hos.
    + intros [= <-]. by apply (os_mkdir_Ret_dir fs).
    + destruct e; try done; destruct (Fs.is_dir fs1 (reverse [])) eqn:Hd; try done;
        by intros [= <-].
  - destruct (Fs.os_mkdir fs (reverse (x :: rp))) as [[[]|e] fs1] eqn:Hos.
    + intros [= <-]. by apply (os_mkdir_Ret_dir fs).
    + destruct e; try done;
        try (destruct (Fs.is_dir fs1 (reverse (x :: rp))) eqn:Hd; try done; by intros [= <-]).
      destruct (Fs.mkdir_parents_rev rp fs1) as [[[]|e] fs2]; [|done].
      apply mkdir_exist_ok_Ret_dir.
Qed.

Lemma copyfile_grows fs p q b : grows fs (Fs.copyfile fs p q b).2.
Proof.
  unfold Fs.copyfile. destruct (bool_decide (p = q) && Fs.exists_ fs p); [reflexivity|].
  destruct (Fs.stat fs p) as [[data|]|]; try reflexivity.
  destruct (Fs.stat fs q) as [[data'|]|] eqn:Hq; try reflexivity.
  - simpl. destruct q as [|x q]; [done|]. simpl in Hq. intros q' e Hq'.
    destruct (decide (q' = x :: q)) as [->|Hne].
    + exists (EFile data). rewrite lookup_insert_eq. split; [done|].
      rewrite Hq in Hq'. by injection Hq' as <-.
    + exists e. rewrite lookup_insert_ne by done. split; [done|]. by destruct e.
  - destruct (Fs.stat fs (Path.parent q)) as [[]|]; try reflexivity. simpl.
    apply grows_insert_fresh. by destruct q.
Qed.

Lemma copyfile_outside fs p q b :
  same_outside (λ q', q' = q) fs (Fs.copyfile fs p q b).2.
Proof.
  unfold Fs.copyfile. destruct (bool_decide (p = q) && Fs.exists_ fs p); [reflexivity|].
  destruct (Fs.stat fs p) as [[data|]|]; try reflexivity.
  destruct (Fs.stat fs q) as [[data'|]|] eqn:Hq; try reflexivity.
  - intros q' Hq'. simpl. by apply lookup_insert_ne.
  - destruct (Fs.stat fs (Path.parent q)) as [[]|]; try reflexivity.
    intros q' Hq'. simpl. by apply lookup_insert_ne.
Qed.

(** A copy that raises has changed nothing. *)
Lemma copyfile_Raise fs p q b e fs' : Fs.copyfile fs p q b = (Raise e, fs') → fs' = fs.
Proof.
  unfold Fs.copyfile. destruct (bool_decide (p = q) && Fs.exists_ fs p); [by intros [= _ <-]|].
  destruct (Fs.stat fs p) as [[data|]|]; try by intros [= _ <-].
  destruct (Fs.stat fs q) as [[data'|]|]; try (by intros [= _ <-]); try (by intros [=]).
  destruct (Fs.stat fs (Path.parent q)) as [[]|]; try (by intros [= _ <-]); by intros [=].
Qed.

Lemma copy2_grows fs p q : grows fs (Fs.copy2 fs p q).2.
Proof. unfold Fs.copy2. destruct (Fs.is_dir fs q); apply copyfile_grows. Qed.

Lemma copy2_outside fs p q :
  same_outside (λ q', q `prefix_of` q') fs (Fs.copy2 fs p q).2.
Proof.
  unfold Fs.copy2. destruct (Fs.is_dir fs q);
    (eapply same_outside_weaken; [|apply copyfile_outside]); intros q' ->;
    [by apply prefix_app_r|done].
Qed.

Lemma copy2_Raise fs p q e fs' : Fs.copy2 fs p q = (Raise e, fs') → fs' = fs.
Proof. unfold Fs.copy2. destruct (Fs.is_dir fs q); apply copyfile_Raise. Qed.

Lemma unlink_shrinks fs p : shrinks fs (Fs.unlink_missing_ok fs p).2.
Proof.
  unfold Fs.unlink_missing_ok. destruct (Fs.stat fs p) as [[]|]; try reflexivity.
  intros q e. simpl. by intros [_ ?]%lookup_delete_Some.
Qed.

Lemma unlink_outside fs p : same_outside (λ q, q = p) fs (Fs.unlink_missing_ok fs p).2.
Proof.
  unfold Fs.unlink_missing_ok. destruct (Fs.stat fs p) as [[]|]; try reflexivity.
  intros q Hq. simpl. by apply lookup_delete_ne.
Qed.

Lemma unlink_keeps_dirs fs p : keeps_dirs fs (Fs.unlink_missing_ok fs p).2.
Proof.
  unfold Fs.unlink_missing_ok. destruct (Fs.stat fs p) as [[data|]|] eqn:Hst; try reflexivity.
  intros q Hq. simpl. rewrite lookup_delete_ne; [done|]. intros <-.
  destruct p; [done|]. simpl in Hst. congruence.
Qed.

Lemma rmtree_shrinks fs p : shrinks fs (Fs.rmtree fs p).2.
Proof.
  unfold Fs.rmtree. destruct (Fs.stat fs p) as [[]|]; try reflexivity.
  assert (shrinks fs (filter (λ kv : path * entry, ¬ p `prefix_of` kv.1) fs)) as H.
  { intros q e. by intros [? _]%map_lookup_filter_Some. }
  by destruct p.
Qed.

Lemma rmtree_outside fs p : same_outside (λ q, p `prefix_of` q) fs (Fs.rmtree fs p).2.
Proof.
  unfold Fs.rmtree. destruct (Fs.stat fs p) as [[]|]; try reflexivity.
  assert (same_outside (λ q, p `prefix_of` q) fs
            (filter (λ kv : path * entry, ¬ p `prefix_of` kv.1) fs)) as H.
  { intros q Hq. rewrite (rmtree_removes_subtree fs p q). by rewrite decide_False. }
  by destruct p.
Qed.

(** ** The operations, step by step *)

Lemma steps_sys_console (f : FS → outcome unit * FS) : steps console_extends (sys f).
Proof. intros w r w' [= <- <-]. exists []. by rewrite app_nil_r, Nat.add_0_r. Qed.

Lemma steps_log_console level msg : steps console_extends (Logger.log level msg).
Proof.
  intros w r w'. rewrite log_spec. intros [= <- <-]. eexists [_]. simpl.
  split_and!; [done|lia|done].
Qed.

Section operations.
Context (R : world → world → Prop) `{!PreOrder R}.
Hypothesis Hlog : ∀ level msg, steps R (Logger.log level msg).

Lemma walk_visit_steps fuel (c : CopyOperation.t) top :
  (∀ p, CopyOperation.dst c `prefix_of` p → steps R (sys (λ fs, Fs.mkdir_parents fs p))) →
  (∀ p q, CopyOperation.dst c `prefix_of` q → steps R (sys (λ fs, Fs.copy2 fs p q))) →
  steps R (os_walk_for fuel top (CopyOperation.visit c)).
Proof.
  intros Hmk Hcp.
  apply steps_walk; [done|]. intros root dirs files. unfold CopyOperation.visit.
  destruct (Path.relative_to root (CopyOperation.src c)) as [rel|]; [|by apply steps_raise].
  unfold Path.joinpath.
  apply steps_bind; [done|apply Hmk; by apply prefix_app_r|]. intros _.
  apply steps_for_each; [done|]. intros f. unfold CopyOperation.copy_file, Path.joinpath.
  apply steps_try; [done| |intros e; apply Hlog].
  apply Hcp. rewrite <- app_assoc. by apply prefix_app_r.
Qed.

Lemma copy_steps fuel (c : CopyOperation.t) :
  (∀ p, CopyOperation.dst c `prefix_of` p → steps R (sys (λ fs, Fs.mkdir_parents fs p))) →
  (∀ p q, CopyOperation.dst c `prefix_of` q → steps R (sys (λ fs, Fs.copy2 fs p q))) →
  steps R (CopyOperation.execute fuel c).
Proof.
  intros Hmk Hcp. unfold CopyOperation.execute.
  apply steps_bind; [done|apply steps_ask; done|]. intros [|]; cbn [negb]; [|apply Hlog].
  apply steps_bind; [done|by apply Hmk|]. intros _.
  apply steps_bind; [done|by apply walk_visit_steps|intros _; apply Hlog].
Qed.

Lemma delete_steps (d : DeleteOperation.t) :
  steps R (sys (λ fs, Fs.rmtree fs (DeleteOperation.target d))) →
  steps R (sys (λ fs, Fs.unlink_missing_ok fs (DeleteOperation.target d))) →
  steps R (DeleteOperation.execute d).
Proof.
  intros Hrm Hul. unfold DeleteOperation.execute.
  apply steps_bind; [done|apply steps_ask; done|]. intros [|]; cbn [negb]; [|apply Hlog].
  apply steps_try; [done| |intros e; apply Hlog].
  apply steps_bind; [done|apply steps_ask; done|]. intros isd.
  destruct (isd && DeleteOperation.recursive d).
  - apply steps_bind; [done|done|]. intros _. apply Hlog.
  - apply steps_bind; [done|done|]. intros _. apply Hlog.
Qed.

(** With [recursive = False] only [unlink] is ever called. *)
Lemma delete_nonrecursive_steps (d : DeleteOperation.t) :
  DeleteOperation.recursive d = false →
  steps R (sys (λ fs, Fs.unlink_missing_ok fs (DeleteOperation.target d))) →
  steps R (DeleteOperation.execute d).
Proof.
  intros Hrec Hul. unfold DeleteOperation.execute.
  apply steps_bind; [done|apply steps_ask; done|]. intros [|]; cbn [negb]; [|apply Hlog].
  apply steps_try; [done| |intros e; apply Hlog].
  apply steps_bind; [done|apply steps_ask; done|]. intros isd.
  rewrite Hrec, andb_false_r.
  apply steps_bind; [done|done|]. intros _. apply Hlog.
Qed.

Lemma run_steps fuel (t : MigrationTask.t) :
  (∀ op, op ∈ MigrationTask.operations t → steps R (Operation_execute fuel op)) →
  steps R (MigrationTask.run fuel t).
Proof.
  intros Hops. unfold MigrationTask.run.
  apply steps_bind; [done|apply Hlog|]. intros _.
  apply steps_bind; [done| |intros _; apply Hlog].
  induction (MigrationTask.operations t) as [|op ops IH]; [by apply steps_ret|].
  apply steps_bind; [done|apply Hops; by left|]. intros _. apply IH.
  intros op' Hop'. apply Hops. by right.
Qed.

Lemma migration_steps fuel (m : DrakensangMigrator.t) :
  steps R (DrakensangMigrator.ensure_destination_parent m) →
  (∀ t, t ∈ DrakensangMigrator.filter_None (DrakensangMigrator.tasks m) →
        steps R (MigrationTask.run fuel t)) →
  steps R (DrakensangMigrator.perform_migration fuel m).
Proof.
  intros Hens Htasks. unfold DrakensangMigrator.perform_migration.
  apply steps_bind; [done|apply Hlog|]. intros _.
  apply steps_bind; [done|apply steps_ask; done|]. intros [|]; cbn [negb]; [|apply Hlog].
  apply steps_bind; [done|done|]. intros _.
  apply steps_bind; [done| |intros _; apply Hlog].
  induction (DrakensangMigrator.filter_None (DrakensangMigrator.tasks m)) as [|t ts IH];
    [by apply steps_ret|].
  apply steps_bind; [done|apply Htasks; by left|]. intros _. apply IH.
  intros t' Ht'. apply Htasks. by right.
Qed.

Lemma ensure_steps (m : DrakensangMigrator.t) :
  steps R (sys (λ fs, Fs.mkdir_parents fs (Path.parent (DrakensangMigrator.destination m)))) →
  steps R (DrakensangMigrator.ensure_destination_parent m).
Proof.
  intros Hmk. unfold DrakensangMigrator.ensure_destination_parent.
  apply steps_bind; [done|apply steps_ask; done|]. intros [|]; cbn [negb];
    [by apply steps_ret|].
  apply steps_bind; [done|apply Hlog|]. by intros _.
Qed.

End operations.

(** The three tasks of a migration, whatever the shortcut. *)
Lemma tasks_elem (m : DrakensangMigrator.t) (t : MigrationTask.t) :
  t ∈ DrakensangMigrator.filter_None (DrakensangMigrator.tasks m) →
  t = copy_task m ∨
  (∃ s, DrakensangMigrator.shortcut m = Some s ∧ t = shortcut_task s) ∨
  t = remove_task m.
Proof.
  rewrite tasks_built. destruct (DrakensangMigrator.shortcut m) as [s|]; simpl.
  - intros [->|[->|[->|[]%elem_of_nil]%elem_of_cons]%elem_of_cons]%elem_of_cons; eauto.
  - intros [->|[->|[]%elem_of_nil]%elem_of_cons]%elem_of_cons; eauto.
Qed.

#[local] Existing Instance on_disk_preorder.

(** * Further properties: the logger *)

(** X1.  [Logger.log] never fails and never touches the file system:
    whatever the severity string, it prints exactly one line, and the code
    in that line is one of INF, DBG, ERR, CLT, EXE and the fallback LOG. *)
Theorem log_prints_one_known_code (level message : string) (w : world) :
  ∃ code, Logger.log level message w = Some (Ret tt, logged w code message) ∧
          code ∈ ["INF"; "DBG"; "ERR"; "CLT"; "EXE"; "LOG"].
Proof.
  rewrite log_spec. destruct (Logger.log_levels !! Str.upper level) as [code|] eqn:H.
  - exists code. split; [done|]. apply elem_of_list_to_map_2 in H.
    repeat (apply elem_of_cons in H as [[= _ <-]|H]; [set_solver|]).
    by apply elem_of_nil in H.
  - exists "LOG". split; [done|]. set_solver.
Qed.

(** X2.  A severity whose upper-case form is none of the five names of the
    table is printed with the code LOG. *)
Theorem log_unknown_severity (level message : string) (w : world) :
  Str.upper level ∉ ["INFO"; "DEBUG"; "ERROR"; "CLIENT"; "EXCEPTION"] →
  Logger.log level message w = Some (Ret tt, logged w "LOG" message).
Proof.
  intros H. rewrite log_spec.
  assert (Logger.log_levels !! Str.upper level = None) as ->; [|done].
  apply not_elem_of_list_to_map_1. exact H.
Qed.

Lemma log_unknown_severity_witness :
  Logger.log "Warning" "disk almost full" small_world
  = Some (Ret tt, logged small_world "LOG" "disk almost full").
Proof.
  apply (log_unknown_severity "Warning" "disk almost full" small_world).
  vm_compute. intros H. repeat (apply elem_of_cons in H as [H|H]; [discriminate H|]).
  by apply elem_of_nil in H.
Defined.

(** The five wrappers print with their own codes: [error] ERR,
    [client] CLT, [debug] DBG, [info] INF, [exception] EXE. *)
Theorem logger_wrappers (msg : string) (w : world) :
  Logger.error msg w = Some (Ret tt, logged w "ERR" msg) ∧
  Logger.client msg w = Some (Ret tt, logged w "CLT" msg) ∧
  Logger.debug msg w = Some (Ret tt, logged w "DBG" msg) ∧
  Logger.info msg w = Some (Ret tt, logged w "INF" msg) ∧
  Logger.exception msg w = Some (Ret tt, logged w "EXE" msg).
Proof. by split_and!. Qed.

(** * Further properties: DeleteOperation *)

Section delete_extras.
Import DeleteOperation.

(** X3.  [DeleteOperation.execute] always returns normally, whatever the
    target and the flag: it never raises and never runs on, and it prints
    exactly one line.  The line is tagged INF exactly for a deletion or a
    skip: its text is one of the three informational messages and the
    target does not exist afterwards.  It is tagged ERR exactly for a
    caught failure: the target existed, the call that was to remove it
    ([rmtree] for a directory with the recursive flag, [unlink]
    otherwise) raised the exception the line reports, and the target
    still exists. *)
Theorem delete_always_returns (d : DeleteOperation.t) (w : world) :
  ∃ w' code msg,
    execute d w = Some (Ret tt, w') ∧
    stdout w' = stdout w ++ [Logger.format_line (clock w (ticks w)) code msg] ∧
    ((code = "INF" ∧
      Fs.exists_ (disk w') (target d) = false ∧
      msg ∈ [ "Target not found, skipping: " +:+ Path.str (target d);
              "Deleted directory: " +:+ Path.str (target d);
              "Deleted file: " +:+ Path.str (target d) ]) ∨
     (code = "ERR" ∧
      Fs.exists_ (disk w) (target d) = true ∧
      Fs.exists_ (disk w') (target d) = true ∧
      ∃ e, ((if Fs.is_dir (disk w) (target d) && recursive d
             then Fs.rmtree (disk w) (target d)
             else Fs.unlink_missing_ok (disk w) (target d)).1 = Raise e) ∧
           msg = "Failed to delete '" +:+ Path.str (target d) +:+ "': " +:+ exn_str e)).
Proof.
  destruct (Fs.exists_ (disk w) (target d)) eqn:Hex.
  - destruct (Fs.is_dir (disk w) (target d)) eqn:Hdir.
    + pose proof Hdir as Hst%is_dir_stat. destruct (recursive d) eqn:Hrec.
      * destruct (decide (target d = [])) as [Hnil|Hne].
        -- rewrite delete_base_recursive by done. do 3 eexists. split; [done|].
           split; [done|]. right. split_and!; [done|done|by rewrite Hnil|].
           eexists. split; [unfold Fs.rmtree; by rewrite Hst, Hnil|by rewrite Hnil].
        -- rewrite delete_directory_recursive by done. do 3 eexists. split; [done|].
           split; [done|]. left. split_and!; [done| |set_solver].
           by apply rmtree_removes_tree.
      * rewrite delete_directory_not_recursive by done. do 3 eexists. split; [done|].
        split; [done|]. right. split_and!; [done..|].
        eexists. split; [unfold Fs.unlink_missing_ok; by rewrite Hst|done].
    + rewrite delete_file by done. do 3 eexists. split; [done|].
      split; [done|]. left. split_and!; [done| |set_solver].
      destruct (not_dir_file _ _ Hex Hdir) as (data & Hl & _).
      assert (target d ≠ []) as Hne by (intros Hnil; by rewrite Hnil in Hdir).
      cbn [disk logged with_disk]. unfold Fs.exists_.
      rewrite stat_lookup by done. by rewrite lookup_delete_eq.
  - rewrite delete_missing by done. do 3 eexists. split; [done|].
    split; [done|]. left. split_and!; [done|done|set_solver].
Qed.

(** X4.  A delete changes nothing outside the subtree of its target, and
    it creates nothing: every entry left was there before, unchanged. *)
Theorem delete_touches_only_target (d : DeleteOperation.t) (w w' : world) (r : outcome unit) :
  execute d w = Some (r, w') →
  same_outside (λ q, target d `prefix_of` q) (disk w) (disk w') ∧
  shrinks (disk w) (disk w').
Proof.
  intros H. split.
  - apply (delete_steps (on_disk (same_outside (λ q, target d `prefix_of` q)))
             (steps_log _) d) with r; [| |done].
    + apply steps_sys. intros fs. apply rmtree_outside.
    + apply steps_sys. intros fs.
      eapply same_outside_weaken; [|apply unlink_outside]. by intros q ->.
  - apply (delete_steps (on_disk shrinks) (steps_log _) d) with r; [| |done].
    + apply steps_sys. intros fs. apply rmtree_shrinks.
    + apply steps_sys. intros fs. apply unlink_shrinks.
Qed.

Lemma delete_touches_only_target_witness :
  same_outside (λ q, ["tmp"; "src"] `prefix_of` q)
    (disk scenario_world) (disk scenario_source_deleted) ∧
  shrinks (disk scenario_world) (disk scenario_source_deleted).
Proof.
  apply (delete_touches_only_target (mk ["tmp"; "src"] true) scenario_world
           scenario_source_deleted (Ret tt)).
  vm_compute. reflexivity.
Defined.

(** X5.  With [recursive = False] a delete never removes a directory, and
    the only entry it can change is the target's own. *)
Theorem delete_nonrecursive_spares_directories (d : DeleteOperation.t) (w w' : world)
    (r : outcome unit) :
  recursive d = false →
  execute d w = Some (r, w') →
  keeps_dirs (disk w) (disk w') ∧
  same_outside (λ q, q = target d) (disk w) (disk w').
Proof.
  intros Hrec H. split.
  - apply (delete_nonrecursive_steps (on_disk keeps_dirs) (steps_log _) d Hrec) with r; [|done].
    apply steps_sys. intros fs. apply unlink_keeps_dirs.
  - apply (delete_nonrecursive_steps (on_disk (same_outside (λ q, q = target d)))
             (steps_log _) d Hrec) with r; [|done].
    apply steps_sys. intros fs. apply unlink_outside.
Qed.

Lemma delete_nonrecursive_spares_directories_witness :
  keeps_dirs (disk small_world) (disk small_file_deleted) ∧
  same_outside (λ q, q = ["f"]) (disk small_world) (disk small_file_deleted).
Proof.
  apply (delete_nonrecursive_spares_directories (mk ["f"] false) small_world
           small_file_deleted (Ret tt)).
  - reflexivity.
  - vm_compute. reflexivity.
Defined.

(** X6.  Deleting twice: when the target is not the base directory and is
    a file or is deleted recursively, the first run leaves no target and
    the second run is a skip that changes nothing and prints the
    informational line. *)
Theorem delete_twice (d : DeleteOperation.t) (w : world) :
  target d ≠ [] →
  recursive d = true ∨ Fs.is_dir (disk w) (target d) = false →
  ∃ w1, execute d w = Some (Ret tt, w1) ∧
        Fs.exists_ (disk w1) (target d) = false ∧
        execute d w1
        = Some (Ret tt, logged w1 "INF"
                          ("Target not found, skipping: " +:+ Path.str (target d))).
Proof.
  intros Hne Hcase.
  assert (∃ w1, execute d w = Some (Ret tt, w1) ∧ Fs.exists_ (disk w1) (target d) = false)
    as (w1 & H1 & Hgone).
  { destruct (Fs.exists_ (disk w) (target d)) eqn:Hex.
    - destruct (Fs.is_dir (disk w) (target d)) eqn:Hdir.
      + destruct Hcase as [Hrec|?]; [|done].
        rewrite delete_directory_recursive by done. eexists. split; [done|]. simpl.
        unfold Fs.exists_. rewrite stat_lookup by done.
        rewrite (rmtree_removes_subtree (disk w) (target d) (target d)).
        by rewrite decide_True.
      + rewrite delete_file by done. eexists. split; [done|]. simpl.
        unfold Fs.exists_. rewrite stat_lookup by done. by rewrite lookup_delete_eq.
    - rewrite delete_missing by done. eexists. split; [done|]. done. }
  exists w1. split; [done|]. split; [done|]. by apply delete_missing.
Qed.

Lemma delete_twice_witness :
  ∃ w1, execute (mk ["tmp"; "src"] true) scenario_world = Some (Ret tt, w1) ∧
        Fs.exists_ (disk w1) ["tmp"; "src"] = false ∧
        execute (mk ["tmp"; "src"] true) w1
        = Some (Ret tt, logged w1 "INF" "Target not found, skipping: tmp/src").
Proof.
  apply (delete_twice (mk ["tmp"; "src"] true) scenario_world).
  - discriminate.
  - left. reflexivity.
Defined.

End delete_extras.

(** * Further properties: CopyOperation *)

Lemma world_eta w : World (disk w) (stdout w) (clock w) (ticks w) = w.
Proof. by destruct w. Qed.

Lemma sys_Ret_inv (f : FS → outcome unit * FS) w w' :
  sys f w = Some (Ret tt, w') → f (disk w) = (Ret tt, disk w') ∧ w' = with_disk w (disk w').
Proof.
  unfold sys. destruct (f (disk w)) as [[[]|e] fs']; simpl; [|done].
  by intros [= <-].
Qed.

Lemma bind_Raise_inv {A B} (m : M A) (k : A → M B) w e w' :
  (m ≫= k) w = Some (Raise e, w') →
  m w = Some (Raise e, w') ∨ ∃ a w1, m w = Some (Ret a, w1) ∧ k a w1 = Some (Raise e, w').
Proof.
  unfold mbind, M_bind. destruct (m w) as [[[a|e1] w1]|]; [eauto| |done].
  intros [= <- <-]. by left.
Qed.

Lemma grows_is_dir fs fs' p : grows fs fs' → Fs.is_dir fs p = true → Fs.is_dir fs' p = true.
Proof.
  intros Hg. rewrite !is_dir_stat. destruct p as [|x p]; [done|]. simpl.
  intros H. destruct (Hg _ _ H) as (e' & He' & Hk). by destruct e'.
Qed.

Lemma grows_exists fs fs' p : grows fs fs' → Fs.exists_ fs p = true → Fs.exists_ fs' p = true.
Proof.
  intros Hg. unfold Fs.exists_. destruct p as [|x p]; [done|]. simpl.
  destruct (fs !! (x :: p)) as [e|] eqn:H; [|done].
  destruct (Hg _ _ H) as (e' & -> & _). done.
Qed.

Lemma grows_file fs fs' p data :
  grows fs fs' → Fs.stat fs p = Some (EFile data) → ∃ data', Fs.stat fs' p = Some (EFile data').
Proof.
  intros Hg. destruct p as [|x p]; [done|]. simpl. intros H.
  destruct (Hg _ _ H) as ([data'|] & He' & Hk); [eauto|done].
Qed.

Lemma copy_grows fuel c : steps (on_disk grows) (CopyOperation.execute fuel c).
Proof.
  apply copy_steps; [apply _|apply steps_log; apply _| |].
  - intros p _. apply steps_sys. intros fs. apply mkdir_parents_grows.
  - intros p q _. apply steps_sys. intros fs. apply copy2_grows.
Qed.

Lemma copy_outside fuel c :
  steps (on_disk (same_outside (λ q, CopyOperation.dst c `prefix_of` q ∨
                                     q `prefix_of` CopyOperation.dst c)))
        (CopyOperation.execute fuel c).
Proof.
  apply copy_steps; [apply _|apply steps_log; apply _| |].
  - intros p Hp. apply steps_sys. intros fs.
    eapply same_outside_weaken; [|apply mkdir_parents_outside]. simpl. intros q Hq.
    destruct (prefix_weak_total _ _ _ Hq Hp); auto.
  - intros p q Hq. apply steps_sys. intros fs.
    eapply same_outside_weaken; [|apply copy2_outside]. simpl. intros q' Hq'.
    left. by etrans.
Qed.

Section copy_extras.
Import CopyOperation.

(** X7.  One step of the inner loop never raises.  When [shutil.copy2]
    succeeds, the step leaves the file system [copy2] made and prints
    nothing.  When [shutil.copy2] raises, the exception is caught: the
    file system is as before the attempt and exactly one ERR line is
    printed, which names the source file and carries the message of that
    exception. *)
Theorem copy_file_never_raises (root dest_dir : path) (file : string) (w : world) :
  ∃ w', copy_file root dest_dir file w = Some (Ret tt, w') ∧
    (∀ fs', Fs.copy2 (disk w) (root ++ [file]) (dest_dir ++ [file]) = (Ret tt, fs') →
       w' = with_disk w fs') ∧
    (∀ e fs', Fs.copy2 (disk w) (root ++ [file]) (dest_dir ++ [file]) = (Raise e, fs') →
       fs' = disk w ∧
       w' = logged w "ERR"
              ("Failed to copy '" +:+ Path.str (root ++ [file]) +:+ "': " +:+ exn_str e)).
Proof.
  unfold copy_file, try_except, sys, Path.joinpath. cbv beta zeta.
  destruct (Fs.copy2 (disk w) (root ++ [file]) (dest_dir ++ [file])) as [[[]|e] fs'] eqn:H;
    simpl.
  - eexists. split; [done|]. split; [by intros ? [= <-]|by intros ? ? [=]].
  - apply copy2_Raise in H as ->. rewrite world_eta. eexists. split; [done|].
    split; [by intros ? [=]|]. by intros ? ? [= <- <-].
Qed.

(** X8.  A copy never deletes: whether it returns or raises, every entry
    that existed before still exists afterwards with the same kind, so no
    directory is replaced by a file and no file by a directory. *)
Theorem copy_never_deletes (fuel : nat) (c : CopyOperation.t) (w w' : world)
    (r : outcome unit) :
  execute fuel c w = Some (r, w') →
  ∀ q e, disk w !! q = Some e → ∃ e', disk w' !! q = Some e' ∧ same_kind e e'.
Proof. intros H. by apply (copy_grows fuel c w r w'). Qed.

Lemma copy_never_deletes_witness :
  ∃ e', disk clash_after !! ["d"; "a"] = Some e' ∧ same_kind EDir e'.
Proof.
  apply (copy_never_deletes 2 (mk ["s"] ["d"]) clash_world clash_after (Ret tt));
    vm_compute; reflexivity.
Defined.

(** X9.  A copy writes only below its destination and on the way down to
    it: every other path of the file system, the source tree included when
    it does not meet the destination, is left exactly as it was. *)
Theorem copy_touches_only_destination (fuel : nat) (c : CopyOperation.t) (w w' : world)
    (r : outcome unit) :
  execute fuel c w = Some (r, w') →
  ∀ q, ¬ (dst c `prefix_of` q ∨ q `prefix_of` dst c) → disk w' !! q = disk w !! q.
Proof. intros H. by apply (copy_outside fuel c w r w'). Qed.

Lemma copy_touches_only_destination_witness :
  disk clash_after !! ["s"; "a"] = disk clash_world !! ["s"; "a"].
Proof.
  apply (copy_touches_only_destination 2 (mk ["s"] ["d"]) clash_world clash_after (Ret tt)).
  - vm_compute. reflexivity.
  - intros [[k Hk]|[k Hk]]; discriminate Hk.
Defined.

End copy_extras.

(** ** Which exceptions can leave an operation *)

Section raises.
Context (P : exn → Prop).

Lemma raises_only_ret {A} (a : A) : raises_only P (mret a : M A).
Proof. by intros w e w'. Qed.

Lemma raises_only_ask {A} (f : FS → A) : raises_only P (ask f).
Proof. by intros w e w'. Qed.

Lemma raises_only_log level msg : raises_only P (Logger.log level msg).
Proof. intros w e w'. by rewrite log_spec. Qed.

Lemma raises_only_sys (f : FS → outcome unit * FS) :
  (∀ fs e, (f fs).1 = Raise e → P e) → raises_only P (sys f).
Proof. intros Hf w e w' [= H _]. by apply (Hf (disk w)). Qed.

Lemma raises_only_bind {A B} (m : M A) (k : A → M B) :
  raises_only P m → (∀ a, raises_only P (k a)) → raises_only P (m ≫= k).
Proof.
  intros Hm Hk w e w' [H|(a & w1 & _ & H)]%bind_Raise_inv.
  - by apply (Hm w e w').
  - by apply (Hk a w1 e w').
Qed.

Lemma raises_only_try {A} (m : M A) (h : exn → M A) :
  (∀ e, raises_only P (h e)) → raises_only P (try_except m h).
Proof.
  intros Hh w e w'. unfold try_except.
  destruct (m w) as [[[a|e1] w1]|]; [done| |done]. apply (Hh e1).
Qed.

Lemma raises_only_for_each {A} (l : list A) (f : A → M unit) :
  (∀ x, x ∈ l → raises_only P (f x)) → raises_only P (for_each l f).
Proof.
  induction l as [|x l IH]; intros Hf; [apply raises_only_ret|].
  apply raises_only_bind; [apply Hf; by left|]. intros _. apply IH.
  intros y Hy. apply Hf. by right.
Qed.

(** The walk only ever visits paths at or below where it started. *)
Lemma raises_only_walk (base : path) fuel body :
  (∀ root dirs files, base `prefix_of` root → raises_only P (body root dirs files)) →
  ∀ top, base `prefix_of` top → raises_only P (os_walk_for fuel top body).
Proof.
  intros Hbody. induction fuel as [|n IH]; intros top Htop; [done|].
  intros w e w'. cbn [os_walk_for].
  destruct (Fs.scandir (disk w) top) as [ents|]; [|done].
  revert w e w'. apply raises_only_bind; [by apply Hbody|]. intros _.
  apply raises_only_for_each. intros d _. apply IH. by apply prefix_app_r.
Qed.

End raises.

Lemma os_mkdir_raises fs p e : (Fs.os_mkdir fs p).1 = Raise e → mkdir_error e.
Proof.
  unfold Fs.os_mkdir. destruct (Fs.stat fs p); [by intros [= <-]|].
  destruct (Fs.stat fs (Path.parent p)) as [[]|]; try done; try by intros [= <-].
  unfold Fs.not_found. destruct (Fs.through_file fs p); by intros [= <-].
Qed.

Lemma mkdir_exist_ok_raises fs p e : (Fs.mkdir_exist_ok fs p).1 = Raise e → mkdir_error e.
Proof.
  unfold Fs.mkdir_exist_ok. pose proof (os_mkdir_raises fs p) as H.
  destruct (Fs.os_mkdir fs p) as [[[]|e1] fs']; [done|]. simpl in H.
  specialize (H e1 eq_refl).
  destruct e1; try done; destruct (Fs.is_dir fs' p); try done; by intros [= <-].
Qed.

Lemma mkdir_parents_rev_raises rp fs e :
  (Fs.mkdir_parents_rev rp fs).1 = Raise e → mkdir_error e.
Proof.
  revert fs. induction rp as [|x rp IH]; intros fs; cbn [Fs.mkdir_parents_rev].
  - pose proof (os_mkdir_raises fs (reverse [])) as H.
    destruct (Fs.os_mkdir fs (reverse [])) as [[[]|e1] fs']; [done|]. simpl in H.
    specialize (H e1 eq_refl).
    destruct e1; try done; try destruct (Fs.is_dir fs' (reverse [])); try done;
      by intros [= <-].
  - pose proof (os_mkdir_raises fs (reverse (x :: rp))) as H.
    destruct (Fs.os_mkdir fs (reverse (x :: rp))) as [[[]|e1] fs']; [done|]. simpl in H.
    specialize (H e1 eq_refl).
    destruct e1; try done;
      try (destruct (Fs.is_dir fs' (reverse (x :: rp))); try done; by intros [= <-]).
    specialize (IH fs').
    destruct (Fs.mkdir_parents_rev rp fs') as [[[]|e2] fs'']; [|by apply IH].
    apply mkdir_exist_ok_raises.
Qed.

Lemma mkdir_parents_raises fs p e : (Fs.mkdir_parents fs p).1 = Raise e → mkdir_error e.
Proof. apply mkdir_parents_rev_raises. Qed.

Lemma copy_raises_only fuel c : raises_only mkdir_error (CopyOperation.execute fuel c).
Proof.
  unfold CopyOperation.execute.
  apply raises_only_bind; [apply raises_only_ask|]. intros [|]; cbn [negb];
    [|apply raises_only_log].
  apply raises_only_bind; [apply raises_only_sys; intros; by eapply mkdir_parents_raises|].
  intros _. apply raises_only_bind; [|intros _; apply raises_only_log].
  apply (raises_only_walk _ (CopyOperation.src c)); [|done].
  intros root dirs files [rel ->]. unfold CopyOperation.visit. rewrite relative_to_app.
  apply raises_only_bind; [apply raises_only_sys; intros; by eapply mkdir_parents_raises|].
  intros _. apply raises_only_for_each. intros f _. unfold CopyOperation.copy_file.
  apply raises_only_try. intros e. apply raises_only_log.
Qed.

(** ** When a copy ends

    A copy whose destination is not at or below its source creates
    nothing deeper below the source than what is there already: what it
    writes below the source, if anything, lies higher than what it reads.
    The walk therefore ends, and a depth budget above the height of the
    tree is enough. *)

Lemma bounded_below_height (src : path) (fs : FS) : bounded_below src (Fs.height fs) fs.
Proof. intros q e Hq _. by apply (height_ge fs q e). Qed.

Lemma bounded_below_outside (src : path) (H : nat) (P : path → Prop) (fs fs' : FS) :
  (∀ q, Decision (P q)) →
  same_outside P fs fs' →
  (∀ q, P q → src `prefix_of` q → (length q ≤ H)%nat) →
  bounded_below src H fs → bounded_below src H fs'.
Proof.
  intros Hdec Hout HP Hb q e Hq Hsrc.
  destruct (decide (P q)) as [HPq|HPq]; [by apply HP|].
  rewrite (Hout q HPq) in Hq. by apply (Hb q e).
Qed.

(** A path below both: the destination is then strictly above the
    source. *)
Lemma apart_shorter (src dst q : path) :
  ¬ src `prefix_of` dst → dst `prefix_of` q → src `prefix_of` q →
  (length dst < length src)%nat.
Proof.
  intros Hn Hd Hs. destruct (prefix_weak_total _ _ _ Hs Hd) as [?|Hds]; [done|].
  destruct (decide (length src ≤ length dst)%nat) as [Hle|]; [|lia].
  exfalso. apply Hn. by rewrite (prefix_length_eq _ _ Hds Hle).
Qed.

Lemma mkdir_parents_bounded (src p : path) (H : nat) (fs : FS) :
  (∀ q, q `prefix_of` p → src `prefix_of` q → (length q ≤ H)%nat) →
  bounded_below src H fs → bounded_below src H (Fs.mkdir_parents fs p).2.
Proof.
  intros Hp. apply (bounded_below_outside src H (λ q, q `prefix_of` p));
    [intros q; apply _|apply mkdir_parents_outside|done].
Qed.

Lemma mkdir_parents_bounded_mirror (src dst rel : path) (H : nat) (fs : FS) :
  ¬ src `prefix_of` dst → (length (src ++ rel) ≤ H)%nat →
  bounded_below src H fs → bounded_below src H (Fs.mkdir_parents fs (dst ++ rel)).2.
Proof.
  intros Hn Hlen. apply mkdir_parents_bounded. intros q Hq Hs.
  destruct (prefix_weak_total _ _ _ Hq (prefix_app_r dst dst rel ltac:(done)))
    as [Hqd|Hdq].
  - exfalso. apply Hn. by etrans.
  - pose proof (apart_shorter _ _ _ Hn Hdq Hs). apply prefix_length in Hq.
    rewrite !length_app in *. lia.
Qed.

Lemma copy2_bounded (src : path) (H : nat) (fs : FS) (p q : path) :
  (∀ q', q `prefix_of` q' → (length q' ≤ length q + 1)%nat → src `prefix_of` q' →
         (length q' ≤ H)%nat) →
  bounded_below src H fs → bounded_below src H (Fs.copy2 fs p q).2.
Proof.
  intros Hq. unfold Fs.copy2. destruct (Fs.is_dir fs q).
  - apply (bounded_below_outside src H (λ q', q' = Path.joinpath q [Path.name p]));
      [intros q'; apply _|apply copyfile_outside|].
    intros q' -> Hs. apply Hq; [by apply prefix_app_r| |done].
    unfold Path.joinpath. rewrite length_app. simpl. lia.
  - apply (bounded_below_outside src H (λ q', q' = q));
      [intros q'; apply _|apply copyfile_outside|].
    intros q' -> Hs. apply Hq; [done|lia|done].
Qed.

(** A loop whose steps all end, ends. *)
Lemma for_each_ends {A} (I : world → Prop) (l : list A) (f : A → M unit) :
  (∀ x w, x ∈ l → I w → ∃ r w', f x w = Some (r, w') ∧ I w') →
  ∀ w, I w → ∃ r w', for_each l f w = Some (r, w') ∧ I w'.
Proof.
  induction l as [|x l IH]; intros Hf w HI; [by exists (Ret tt), w|].
  destruct (Hf x w) as ([[]|e] & w1 & Hx & HI1); [by left|done| |].
  - destruct (IH ltac:(intros y w2 Hy; apply Hf; by right) w1 HI1) as (r & w2 & Hr & HI2).
    exists r, w2. by rewrite for_each_cons, (bind_Ret _ _ _ _ _ Hx).
  - exists (Raise e), w1. by rewrite for_each_cons, (bind_Raise _ _ _ _ _ Hx).
Qed.

Section copy_ends.
Import CopyOperation.

Lemma copy_file_bounded (c : CopyOperation.t) (H : nat) (rel : path) (f : string) (w : world) :
  ¬ src c `prefix_of` dst c → (length (src c ++ rel) + 1 ≤ H)%nat →
  bounded_below (src c) H (disk w) →
  ∃ w', copy_file (src c ++ rel) (dst c ++ rel) f w = Some (Ret tt, w') ∧
        bounded_below (src c) H (disk w').
Proof.
  intros Hn Hlen Hb.
  unfold copy_file, try_except, sys, Path.joinpath. cbv beta zeta.
  assert (bounded_below (src c) H
            (Fs.copy2 (disk w) ((src c ++ rel) ++ [f]) ((dst c ++ rel) ++ [f])).2) as Hb'.
  { apply copy2_bounded; [|done]. intros q' Hq' Hlen' Hs.
    assert (dst c `prefix_of` q') as Hd.
    { etrans; [|exact Hq']. rewrite <- app_assoc. by apply prefix_app_r. }
    pose proof (apart_shorter _ _ _ Hn Hd Hs). rewrite !length_app in *. simpl in *. lia. }
  destruct (Fs.copy2 (disk w) ((src c ++ rel) ++ [f]) ((dst c ++ rel) ++ [f]))
    as [[[]|e] fs'] eqn:Hc; simpl in *.
  - by eexists.
  - apply copy2_Raise in Hc as ->. by eexists.
Qed.

Lemma visit_bounded (c : CopyOperation.t) (H : nat) (rel : path) (dirs files : list string)
    (w : world) :
  ¬ src c `prefix_of` dst c → (length (src c ++ rel) ≤ H)%nat →
  (∀ f, f ∈ files → (length (src c ++ rel) + 1 ≤ H)%nat) →
  bounded_below (src c) H (disk w) →
  ∃ r w', visit c (src c ++ rel) dirs files w = Some (r, w') ∧
          bounded_below (src c) H (disk w').
Proof.
  intros Hn Hlen Hfiles Hb. unfold visit. rewrite relative_to_app. unfold Path.joinpath.
  pose proof (mkdir_parents_bounded_mirror _ _ _ _ _ Hn Hlen Hb) as Hb1.
  destruct (Fs.mkdir_parents (disk w) (dst c ++ rel)) as [[[]|e] fs1] eqn:Hmk; simpl in Hb1.
  - rewrite (bind_Ret (sys _) _ _ tt (with_disk w fs1))
      by (unfold sys; cbv beta zeta; by rewrite Hmk).
    apply (for_each_ends (λ w, bounded_below (src c) H (disk w))); [|done].
    intros f w1 Hf Hb2.
    destruct (copy_file_bounded c H rel f w1 Hn (Hfiles f Hf) Hb2) as (w2 & ? & ?).
    by exists (Ret tt), w2.
  - exists (Raise e), (with_disk w fs1). split; [|done].
    apply bind_Raise. unfold sys. cbv beta zeta. by rewrite Hmk.
Qed.

Lemma walk_bounded (c : CopyOperation.t) (H : nat) :
  ¬ src c `prefix_of` dst c →
  ∀ n rel w,
    (length (src c ++ rel) ≤ H)%nat → (H < n + length (src c ++ rel))%nat →
    bounded_below (src c) H (disk w) →
    ∃ r w', os_walk_for n (src c ++ rel) (visit c) w = Some (r, w') ∧
            bounded_below (src c) H (disk w').
Proof.
  intros Hn. induction n as [|n IH]; intros rel w Hlen Hfuel Hb; [lia|].
  cbn [os_walk_for].
  destruct (Fs.scandir (disk w) (src c ++ rel)) as [ents|] eqn:Hscan;
    [|by exists (Ret tt), w].
  pose proof (scandir_Some _ _ _ Hscan) as Hents.
  assert (∀ x e, (x, e) ∈ ents → (length (src c ++ rel) + 1 ≤ H)%nat) as Hchild.
  { intros x e Hin. apply Hents in Hin.
    pose proof (Hb _ _ Hin ltac:(rewrite <- app_assoc; by apply prefix_app_r)) as Hl.
    rewrite length_app in Hl. simpl in Hl. lia. }
  destruct (visit_bounded c H rel (Fs.dir_names ents) (Fs.file_names ents) w)
    as ([[]|e] & w1 & Hv & Hb1); [done|done| |done| |].
  { intros f (data & Hin)%file_names_spec. by eapply Hchild. }
  - rewrite (bind_Ret _ _ _ _ _ Hv).
    apply (for_each_ends (λ w, bounded_below (src c) H (disk w))); [|done].
    intros d w2 Hd%dir_names_spec Hb2. unfold Path.joinpath. rewrite <- app_assoc.
    pose proof (Hchild _ _ Hd) as Hl.
    apply IH; [| |done]; rewrite ?length_app in *; simpl in *; lia.
  - exists (Raise e), w1. by rewrite (bind_Raise _ _ _ _ _ Hv).
Qed.

(** The whole operation ends, with a return or with an exception. *)
Lemma copy_ends (fuel : nat) (c : CopyOperation.t) (H : nat) (w : world) :
  ¬ src c `prefix_of` dst c → (H < fuel)%nat →
  bounded_below (src c) H (disk w) →
  ∃ r w', execute fuel c w = Some (r, w') ∧ bounded_below (src c) H (disk w').
Proof.
  intros Hn Hfuel Hb. unfold execute.
  destruct (Fs.exists_ (disk w) (src c)) eqn:Hex.
  - rewrite (bind_Ret (ask _) _ _ true w) by (unfold ask; by rewrite Hex).
    cbv beta. change (negb true) with false. cbv iota.
    assert (src c ≠ []) as Hne by (intros Heq; apply Hn; rewrite Heq; apply prefix_nil).
    assert (length (src c ++ []) ≤ H)%nat as Hlen.
    { rewrite app_nil_r. apply exists_true_stat in Hex as [e He].
      rewrite stat_lookup in He by done. by apply (Hb _ _ He). }
    pose proof (mkdir_parents_bounded_mirror _ _ [] _ _ Hn Hlen Hb) as Hb1.
    rewrite app_nil_r in Hb1.
    destruct (Fs.mkdir_parents (disk w) (dst c)) as [[[]|e] fs1] eqn:Hmk; simpl in Hb1.
    + rewrite (bind_Ret (sys _) _ _ tt (with_disk w fs1))
        by (unfold sys; cbv beta zeta; by rewrite Hmk).
      destruct (walk_bounded c H Hn fuel [] (with_disk w fs1)) as ([[]|e] & w2 & Hw & Hb2);
        [done|lia|done| |]; rewrite app_nil_r in Hw.
      * rewrite (bind_Ret _ _ _ _ _ Hw), info_spec. by eexists _, _.
      * exists (Raise e), w2. by rewrite (bind_Raise _ _ _ _ _ Hw).
    + exists (Raise e), (with_disk w fs1). split; [|done].
      apply bind_Raise. unfold sys. cbv beta zeta. by rewrite Hmk.
  - rewrite (bind_Ret (ask _) _ _ false w) by (unfold ask; by rewrite Hex).
    cbv beta. change (negb false) with true. cbv iota. rewrite error_spec. by eexists _, _.
Qed.

End copy_ends.

(** X11.  When the destination does not lie at or below the source, a copy
    ends, given a depth budget above the height of the tree, and the only
    exceptions that can leave [CopyOperation.execute] are the ones [mkdir]
    raises for the destination directories ([FileExistsError],
    [NotADirectoryError], [FileNotFoundError]): a failing file copy is
    logged, and [relative_to] never fails because the walk stays below the
    source. *)
Theorem copy_raises_only_mkdir_errors (fuel : nat) (c : CopyOperation.t) (w : world) :
  ¬ CopyOperation.src c `prefix_of` CopyOperation.dst c →
  (Fs.height (disk w) < fuel)%nat →
  ∃ r w', CopyOperation.execute fuel c w = Some (r, w') ∧
          ∀ e, r = Raise e → mkdir_error e.
Proof.
  intros Hn Hfuel.
  destruct (copy_ends fuel c (Fs.height (disk w)) w Hn Hfuel (bounded_below_height _ _))
    as (r & w' & Hrun & _).
  exists r, w'. split; [done|]. intros e ->. by apply (copy_raises_only fuel c w e w').
Qed.

Lemma copy_raises_only_mkdir_errors_witness :
  ∃ r w', CopyOperation.execute 3 (CopyOperation.mk ["s"] ["d"]) blocked_world
          = Some (r, w') ∧
          ∀ e, r = Raise e → mkdir_error e.
Proof.
  apply (copy_raises_only_mkdir_errors 3 (CopyOperation.mk ["s"] ["d"]) blocked_world).
  - intros [k Hk]. discriminate Hk.
  - vm_compute. lia.
Defined.

(** ** A source that is a file *)

#[local] Instance no_new_file_preorder : PreOrder no_new_file.
Proof.
  split.
  - by intros fs q data H.
  - intros fs1 fs2 fs3 H1 H2 q data H. by apply H1, H2.
Qed.

Lemma os_mkdir_no_new_file fs p : no_new_file fs (Fs.os_mkdir fs p).2.
Proof.
  unfold Fs.os_mkdir. destruct (Fs.stat fs p) eqn:Hst; [reflexivity|].
  destruct (Fs.stat fs (Path.parent p)) as [[]|];
    [reflexivity| |reflexivity]. simpl.
  intros q data Hq. destruct (decide (q = p)) as [->|Hne].
  - by rewrite lookup_insert_eq in Hq.
  - by rewrite lookup_insert_ne in Hq.
Qed.

Lemma mkdir_parents_no_new_file fs p : no_new_file fs (Fs.mkdir_parents fs p).2.
Proof.
  unfold Fs.mkdir_parents. apply (mkdir_parents_rev_keeps no_new_file).
  intros. apply os_mkdir_no_new_file.
Qed.

(** X10.  A source that is a regular file is never copied: [os.walk] yields
    nothing for it.  Whatever the outcome, no file is created or changed
    and nothing is removed; only directories on the way to the destination
    are made.  When [mkdir] succeeds, as it does whenever no component of
    the destination path is an existing file, the operation reports
    success and returns, with the destination a directory; otherwise the
    exception of [mkdir] leaves [execute] and nothing is logged. *)
Theorem copy_of_a_file_copies_nothing (fuel : nat) (c : CopyOperation.t) (w : world)
    (data : list byte) :
  Fs.stat (disk w) (CopyOperation.src c) = Some (EFile data) →
  ∃ r w', CopyOperation.execute (S fuel) c w = Some (r, w') ∧
    no_new_file (disk w) (disk w') ∧
    grows (disk w) (disk w') ∧
    same_outside (λ q, q `prefix_of` CopyOperation.dst c) (disk w) (disk w') ∧
    (r = Ret tt →
       Fs.is_dir (disk w') (CopyOperation.dst c) = true ∧
       stdout w' = stdout w ++
         [Logger.format_line (clock w (ticks w)) "INF"
            "Copy operation completed successfully."]) ∧
    (∀ e, r = Raise e → mkdir_error e ∧ stdout w' = stdout w) ∧
    (no_file_on_path (disk w) (CopyOperation.dst c) → r = Ret tt).
Proof.
  intros Hsrc.
  assert (CopyOperation.src c ≠ []) as Hne by (by intros Heq; rewrite Heq in Hsrc).
  pose proof (mkdir_parents_no_new_file (disk w) (CopyOperation.dst c)) as Hnn.
  pose proof (mkdir_parents_grows (disk w) (CopyOperation.dst c)) as Hg.
  pose proof (mkdir_parents_outside (disk w) (CopyOperation.dst c)) as Ho.
  pose proof (mkdir_parents_raises (disk w) (CopyOperation.dst c)) as Hr.
  pose proof (mkdir_parents_Ret_dir (disk w) (CopyOperation.dst c)) as Hd.
  unfold CopyOperation.execute.
  rewrite (bind_Ret (ask _) _ _ true w)
    by (unfold ask, Fs.exists_; by rewrite Hsrc).
  cbv beta. change (negb true) with false. cbv iota.
  destruct (Fs.mkdir_parents (disk w) (CopyOperation.dst c)) as [[[]|e] fsA] eqn:Hmk;
    simpl in Hnn, Hg, Ho, Hr.
  - exists (Ret tt), (logged (with_disk w fsA) "INF" "Copy operation completed successfully.").
    split.
    { rewrite (bind_Ret (sys _) _ _ tt (with_disk w fsA))
        by (unfold sys; cbv beta zeta; by rewrite Hmk).
      rewrite (bind_Ret _ _ _ tt (with_disk w fsA)); [done|].
      cbn [os_walk_for]. unfold Fs.scandir. cbn [disk with_disk].
      by destruct (grows_file _ _ _ _ Hg Hsrc) as [data' ->]. }
    split_and!; [done|done|done| |by intros e [=]|done].
    intros _. split; [by apply Hd|done].
  - exists (Raise e), (with_disk w fsA). split.
    { apply bind_Raise. unfold sys. cbv beta zeta. by rewrite Hmk. }
    split_and!; [done|done|done|by intros [=]| |].
    + intros e' [= <-]. split; [by apply Hr|done].
    + intros Hnf. destruct (mkdir_parents_ok _ _ Hnf) as (fs' & Hmk' & _). congruence.
Qed.

Lemma copy_of_a_file_copies_nothing_witness :
  ∃ r w', CopyOperation.execute 1 (CopyOperation.mk ["f"] ["d"; "copy"]) small_world
          = Some (r, w') ∧
    no_new_file (disk small_world) (disk w') ∧
    grows (disk small_world) (disk w') ∧
    same_outside (λ q, q `prefix_of` ["d"; "copy"]) (disk small_world) (disk w') ∧
    (r = Ret tt →
       Fs.is_dir (disk w') ["d"; "copy"] = true ∧
       stdout w' = ["[12:00:00] [INF] - Copy operation completed successfully."]) ∧
    (∀ e, r = Raise e → mkdir_error e ∧ stdout w' = []) ∧
    (no_file_on_path (disk small_world) ["d"; "copy"] → r = Ret tt).
Proof.
  apply (copy_of_a_file_copies_nothing 0 (CopyOperation.mk ["f"] ["d"; "copy"])
           small_world [x61]).
  reflexivity.
Defined.

(** * Further properties: tasks *)

Lemma operation_console fuel op : steps console_extends (Operation_execute fuel op).
Proof.
  destruct op as [c|d]; simpl.
  - apply copy_steps; [apply _|apply steps_log_console|..]; intros; apply steps_sys_console.
  - apply delete_steps; [apply _|apply steps_log_console|..]; apply steps_sys_console.
Qed.

Lemma delete_shrinks d : steps (on_disk shrinks) (DeleteOperation.execute d).
Proof.
  apply delete_steps; [apply _|apply steps_log; apply _|..].
  - apply steps_sys. intros fs. apply rmtree_shrinks.
  - apply steps_sys. intros fs. apply unlink_shrinks.
Qed.

Section task_extras.
Import MigrationTask.

(** X12.  A task that returns has bracketed what its operations printed:
    the first new line is its start line, the last its completion line,
    and every line in between cost one reading of the clock. *)
Theorem run_brackets_the_log (fuel : nat) (t : MigrationTask.t) (w w' : world) :
  run fuel t w = Some (Ret tt, w') →
  ∃ mid,
    stdout w' = stdout w
      ++ [Logger.format_line (clock w (ticks w)) "INF" ("Starting task: " +:+ name t)]
      ++ mid
      ++ [Logger.format_line (clock w (S (ticks w) + length mid)) "INF"
            ("Completed task: " +:+ name t)].
Proof.
  unfold run. rewrite (bind_Ret _ _ _ _ _ (info_spec _ w)).
  intros ([] & w2 & Hops & Hend)%bind_Ret_inv.
  assert (console_extends (logged w "INF" ("Starting task: " +:+ name t)) w2)
    as (mid & Hout & Htick & Hclock).
  { apply (steps_for_each console_extends _ _ (operation_console fuel) _ _ _ Hops). }
  rewrite info_spec in Hend. injection Hend as <-. exists mid. simpl in *.
  rewrite Hout, Htick, Hclock. by rewrite <- !app_assoc.
Qed.

Lemma run_brackets_the_log_witness :
  ∃ mid,
    stdout small_file_deleted_task = stdout small_world
      ++ [Logger.format_line (clock small_world (ticks small_world)) "INF"
            ("Starting task: " +:+ "Delete Shortcut")]
      ++ mid
      ++ [Logger.format_line (clock small_world (S (ticks small_world) + length mid)) "INF"
            ("Completed task: " +:+ "Delete Shortcut")].
Proof.
  apply (run_brackets_the_log 0 (shortcut_task ["f"]) small_world small_file_deleted_task).
  vm_compute. reflexivity.
Defined.

(** X13.  A task made of delete operations only always reaches its
    completion line, whatever the targets and the state of the file
    system, and it creates nothing. *)
Theorem deletes_only_task_completes (fuel : nat) (task_name : string)
    (ds : list DeleteOperation.t) (w : world) :
  ∃ w1, run fuel (mk task_name (Delete <$> ds)) w
        = Some (Ret tt, logged w1 "INF" ("Completed task: " +:+ task_name)) ∧
        shrinks (disk w) (disk w1).
Proof.
  destruct (delete_task_completes fuel task_name ds w) as [w1 H]. exists w1.
  split; [done|].
  assert (steps (on_disk shrinks) (run fuel (mk task_name (Delete <$> ds)))) as Hs.
  { apply run_steps; [apply _|apply steps_log; apply _|].
    intros op (d & -> & _)%list_elem_of_fmap. apply delete_shrinks. }
  apply (Hs _ _ _ H).
Qed.

End task_extras.

(** * Further properties: the migration *)

#[local] Instance stays_dir_preorder s : PreOrder (stays_dir s).
Proof.
  split; [intros fs H; exact H|]. intros fs1 fs2 fs3 H12 H23 H. by apply H23, H12.
Qed.

Lemma run_grows_copy fuel m : steps (on_disk grows) (MigrationTask.run fuel (copy_task m)).
Proof.
  apply run_steps; [apply _|apply steps_log; apply _|].
  intros op ->%list_elem_of_singleton. apply copy_grows.
Qed.

Lemma run_shrinks_remove fuel m :
  steps (on_disk shrinks) (MigrationTask.run fuel (remove_task m)).
Proof.
  apply run_steps; [apply _|apply steps_log; apply _|].
  intros op ->%list_elem_of_singleton. apply delete_shrinks.
Qed.

Lemma run_outside_remove fuel m :
  steps (on_disk (same_outside (λ q, DrakensangMigrator.source m `prefix_of` q)))
        (MigrationTask.run fuel (remove_task m)).
Proof.
  apply run_steps; [apply _|apply steps_log; apply _|].
  intros op ->%list_elem_of_singleton. apply delete_steps; [apply _|apply steps_log; apply _|..].
  - apply steps_sys. intros fs. apply rmtree_outside.
  - apply steps_sys. intros fs.
    eapply same_outside_weaken; [|apply unlink_outside]. by intros q ->.
Qed.

Lemma run_keeps_dirs_shortcut fuel s :
  steps (on_disk keeps_dirs) (MigrationTask.run fuel (shortcut_task s)).
Proof.
  apply run_steps; [apply _|apply steps_log; apply _|].
  intros op ->%list_elem_of_singleton.
  apply delete_nonrecursive_steps; [apply _|apply steps_log; apply _|done|].
  apply steps_sys. intros fs. apply unlink_keeps_dirs.
Qed.

Lemma run_outside_shortcut fuel s :
  steps (on_disk (same_outside (λ q, q = s))) (MigrationTask.run fuel (shortcut_task s)).
Proof.
  apply run_steps; [apply _|apply steps_log; apply _|].
  intros op ->%list_elem_of_singleton.
  apply delete_nonrecursive_steps; [apply _|apply steps_log; apply _|done|].
  apply steps_sys. intros fs. apply unlink_outside.
Qed.

Lemma ensure_grows m :
  steps (on_disk grows) (DrakensangMigrator.ensure_destination_parent m).
Proof.
  apply ensure_steps; [apply _|apply steps_log; apply _|].
  apply steps_sys. intros fs. apply mkdir_parents_grows.
Qed.

Lemma run_never_raises_deletes fuel name (ds : list DeleteOperation.t) w e w' :
  MigrationTask.run fuel (MigrationTask.mk name (Delete <$> ds)) w ≠ Some (Raise e, w').
Proof. destruct (delete_task_completes fuel name ds w) as [w1 ->]. done. Qed.

Lemma run_raises_only fuel (t : MigrationTask.t) (P : exn → Prop) :
  (∀ op, op ∈ MigrationTask.operations t → raises_only P (Operation_execute fuel op)) →
  raises_only P (MigrationTask.run fuel t).
Proof.
  intros Hops. unfold MigrationTask.run.
  apply raises_only_bind; [apply raises_only_log|]. intros _.
  apply raises_only_bind; [|intros _; apply raises_only_log].
  by apply raises_only_for_each.
Qed.

Lemma ensure_raises_only m :
  raises_only mkdir_error (DrakensangMigrator.ensure_destination_parent m).
Proof.
  unfold DrakensangMigrator.ensure_destination_parent.
  apply raises_only_bind; [apply raises_only_ask|]. intros [|]; cbn [negb];
    [apply raises_only_ret|].
  apply raises_only_bind; [apply raises_only_log|]. intros _.
  apply raises_only_sys. intros. by eapply mkdir_parents_raises.
Qed.

(** When a copy whose source exists returns, its destination is a
    directory. *)
Lemma copy_Ret_dst_dir fuel c w w' :
  Fs.exists_ (disk w) (CopyOperation.src c) = true →
  CopyOperation.execute fuel c w = Some (Ret tt, w') →
  Fs.is_dir (disk w') (CopyOperation.dst c) = true.
Proof.
  intros Hex. unfold CopyOperation.execute.
  rewrite (bind_Ret (ask _) _ _ true w) by (unfold ask; by rewrite Hex).
  cbv beta. change (negb true) with false. cbv iota.
  intros ([] & wA & [Hmk _]%sys_Ret_inv & Hrest)%bind_Ret_inv.
  apply mkdir_parents_Ret_dir in Hmk.
  assert (steps (on_disk grows)
            (os_walk_for fuel (CopyOperation.src c) (CopyOperation.visit c) ;;
             Logger.info "Copy operation completed successfully.")) as Hs.
  { apply steps_bind; [apply _| |intros _; apply steps_log; apply _].
    apply walk_visit_steps; [apply _|apply steps_log; apply _|..].
    - intros p _. apply steps_sys. intros fs. apply mkdir_parents_grows.
    - intros p q _. apply steps_sys. intros fs. apply copy2_grows. }
  by apply (grows_is_dir _ _ _ (Hs _ _ _ Hrest)).
Qed.

Section migration_extras.
Import DrakensangMigrator.

(** X14.  When [ensure_destination_parent] returns, the parent of the
    destination exists; nothing was removed to get there, and when the
    parent existed already the step did nothing at all. *)
Theorem ensure_destination_parent_post (m : DrakensangMigrator.t) (w w' : world) :
  ensure_destination_parent m w = Some (Ret tt, w') →
  Fs.exists_ (disk w') (Path.parent (destination m)) = true ∧
  grows (disk w) (disk w') ∧
  (Fs.exists_ (disk w) (Path.parent (destination m)) = true → w' = w).
Proof.
  intros H. split_and!.
  - revert H. unfold ensure_destination_parent.
    destruct (Fs.exists_ (disk w) (Path.parent (destination m))) eqn:Hex.
    + rewrite (bind_Ret (ask _) _ _ true w) by (unfold ask; by rewrite Hex).
      by intros [= <-].
    + rewrite (bind_Ret (ask _) _ _ false w) by (unfold ask; by rewrite Hex).
      cbv beta. change (negb false) with true. cbv iota.
      rewrite (bind_Ret _ _ _ _ _ (info_spec _ w)).
      intros [Hmk _]%sys_Ret_inv. by apply mkdir_parents_Ret_dir, is_dir_exists in Hmk.
  - apply (ensure_grows m _ _ _ H).
  - intros Hex. revert H. unfold ensure_destination_parent.
    rewrite (bind_Ret (ask _) _ _ true w) by (unfold ask; by rewrite Hex).
    by intros [= <-].
Qed.

Lemma ensure_destination_parent_post_witness :
  Fs.exists_ (disk scenario_parent_made) (Path.parent ["tmp"; "new"; "game"]) = true ∧
  grows (disk scenario_world) (disk scenario_parent_made) ∧
  (Fs.exists_ (disk scenario_world) (Path.parent ["tmp"; "new"; "game"]) = true →
   scenario_parent_made = scenario_world).
Proof.
  apply (ensure_destination_parent_post (mk ["tmp"; "src"] ["tmp"; "new"; "game"] None)
           scenario_world scenario_parent_made).
  vm_compute. reflexivity.
Defined.

(** X15.  A migration only adds to the console: however it ends, the
    lines printed before are still there, every new line cost exactly one
    reading of the clock, and the clock itself is untouched. *)
Theorem migration_extends_console (fuel : nat) (m : DrakensangMigrator.t) (w w' : world)
    (r : outcome unit) :
  perform_migration fuel m w = Some (r, w') →
  ∃ lines, stdout w' = stdout w ++ lines ∧
           ticks w' = ticks w + length lines ∧
           clock w' = clock w.
Proof.
  intros H.
  apply (migration_steps console_extends steps_log_console fuel m) with r; [| |done].
  - apply ensure_steps; [apply _|apply steps_log_console|apply steps_sys_console].
  - intros t _. apply run_steps; [apply _|apply steps_log_console|].
    intros op _. apply operation_console.
Qed.

Lemma migration_extends_console_witness :
  ∃ lines, stdout scenario_after = stdout scenario_world ++ lines ∧
           ticks scenario_after = ticks scenario_world + length lines ∧
           clock scenario_after = clock scenario_world.
Proof.
  apply (migration_extends_console 3 scenario_migrator scenario_world scenario_after (Ret tt)).
  vm_compute. reflexivity.
Defined.

Lemma migration_outside fuel m :
  steps (on_disk (same_outside (migration_region m))) (perform_migration fuel m).
Proof.
  apply migration_steps; [apply _|apply steps_log; apply _|..].
  - apply ensure_steps; [apply _|apply steps_log; apply _|].
    apply steps_sys. intros fs.
    eapply same_outside_weaken; [|apply mkdir_parents_outside]. simpl. intros q Hq.
    right. right. left. etrans; [exact Hq|apply parent_prefix].
  - intros t [->|[(s & Hs & ->)| ->]]%tasks_elem.
    + apply run_steps; [apply _|apply steps_log; apply _|].
      intros op ->%list_elem_of_singleton.
      eapply steps_weaken; [|apply copy_outside]. intros w1 w2 H q Hq. apply H.
      unfold migration_region in Hq. simpl. tauto.
    + eapply steps_weaken; [|apply run_outside_shortcut]. intros w1 w2 H q Hq. apply H.
      intros ->. apply Hq. unfold migration_region. auto.
    + eapply steps_weaken; [|apply run_outside_remove]. intros w1 w2 H q Hq. apply H.
      intros Hpre. apply Hq. unfold migration_region. auto.
Qed.

(** X16.  A migration touches nothing but the source tree, the destination
    tree, the directories leading to the destination, and the shortcut:
    however it ends, every other path of the file system is exactly as it
    was. *)
Theorem migration_touches_only_its_region (fuel : nat) (m : DrakensangMigrator.t)
    (w w' : world) (r : outcome unit) :
  perform_migration fuel m w = Some (r, w') →
  ∀ q, ¬ (source m `prefix_of` q ∨ destination m `prefix_of` q ∨
          q `prefix_of` destination m ∨ shortcut m = Some q) →
       disk w' !! q = disk w !! q.
Proof. intros H. by apply (migration_outside fuel m w r w'). Qed.

Lemma migration_touches_only_its_region_witness :
  disk folder_shortcut_after !! ["menu"; "game.lnk"]
  = disk folder_shortcut_world !! ["menu"; "game.lnk"].
Proof.
  apply (migration_touches_only_its_region 2 (mk ["old"] ["new"] (Some ["menu"]))
           folder_shortcut_world folder_shortcut_after (Ret tt)).
  - vm_compute. reflexivity.
  - intros [[k Hk]|[[k Hk]|[[k Hk]|Hk]]]; discriminate Hk.
Defined.

(** A migration that raises has raised one of [mkdir]'s exceptions, before
    any delete ran. *)
Lemma migration_raise_grows (fuel : nat) (m : DrakensangMigrator.t) (w w' : world) (e : exn) :
  perform_migration fuel m w = Some (Raise e, w') →
  mkdir_error e ∧ grows (disk w) (disk w').
Proof.
  intros Hrun. destruct (Fs.exists_ (disk w) (source m)) eqn:Hex;
    [|by rewrite perform_migration_not_found in Hrun].
  rewrite perform_migration_found in Hrun by done.
  change (disk w) with (disk (logged w "INF" "Migration process initiated.")).
  apply bind_Raise_inv in Hrun as [Hens|([] & w0 & Hens & Hrun)].
  { split; [by apply (ensure_raises_only m _ _ _ Hens)|by apply (ensure_grows m _ _ _ Hens)]. }
  apply (ensure_grows m) in Hens.
  apply bind_Raise_inv in Hrun as [Hcopy|([] & w1 & Hcopy & Hrun)].
  { split.
    - apply (run_raises_only fuel (copy_task m) mkdir_error) in Hcopy; [done|].
      intros op ->%list_elem_of_singleton. apply copy_raises_only.
    - etrans; [exact Hens|]. by apply (run_grows_copy fuel m _ _ _ Hcopy). }
  exfalso.
  apply bind_Raise_inv in Hrun as [Hsc|([] & w2 & _ & Hrun)].
  { destruct (shortcut m) as [s|]; [|done].
    by apply (run_never_raises_deletes fuel "Delete Shortcut"
                [DeleteOperation.mk s false]) in Hsc. }
  apply bind_Raise_inv in Hrun as [Hrm|([] & w3 & _ & Hrun)].
  { by apply (run_never_raises_deletes fuel "Remove Old Installation"
                [DeleteOperation.mk (source m) true]) in Hrm. }
  by rewrite info_spec in Hrun.
Qed.

(** The steps of a migration end when the destination is not at or below
    the source. *)
Lemma ensure_bounded (m : DrakensangMigrator.t) (H : nat) (w : world) :
  ¬ source m `prefix_of` destination m → bounded_below (source m) H (disk w) →
  ∃ r w', ensure_destination_parent m w = Some (r, w') ∧
          bounded_below (source m) H (disk w').
Proof.
  intros Hn Hb. unfold ensure_destination_parent.
  destruct (Fs.exists_ (disk w) (Path.parent (destination m))) eqn:Hp.
  - rewrite (bind_Ret (ask _) _ _ true w) by (unfold ask; by rewrite Hp).
    by exists (Ret tt), w.
  - rewrite (bind_Ret (ask _) _ _ false w) by (unfold ask; by rewrite Hp).
    cbv beta. change (negb false) with true. cbv iota.
    rewrite (bind_Ret _ _ _ _ _ (info_spec _ w)). unfold sys. cbv beta zeta.
    eexists _, _. split; [done|]. cbn [disk logged].
    apply mkdir_parents_bounded; [|done]. intros q Hq Hs. exfalso. apply Hn.
    etrans; [exact Hs|]. etrans; [exact Hq|apply parent_prefix].
Qed.

Lemma run_copy_ends (fuel : nat) (m : DrakensangMigrator.t) (H : nat) (w : world) :
  ¬ source m `prefix_of` destination m → (H < fuel)%nat →
  bounded_below (source m) H (disk w) →
  ∃ r w', MigrationTask.run fuel (copy_task m) w = Some (r, w').
Proof.
  intros Hn Hf Hb. unfold MigrationTask.run, copy_task.
  cbn [MigrationTask.operations MigrationTask.name].
  rewrite (bind_Ret _ _ _ _ _ (info_spec _ w)).
  set (w0 := logged w _ _).
  destruct (copy_ends fuel (CopyOperation.mk (source m) (destination m)) H w0 Hn Hf Hb)
    as ([[]|e] & w1 & Hc & _).
  - rewrite (bind_Ret (for_each _ _) _ _ tt w1) by (by rewrite for_each_singleton).
    rewrite info_spec. eauto.
  - eexists _, _. apply bind_Raise. rewrite for_each_singleton. exact Hc.
Qed.

Lemma migration_ends (fuel : nat) (m : DrakensangMigrator.t) (w : world) :
  ¬ source m `prefix_of` destination m → (Fs.height (disk w) < fuel)%nat →
  ∃ r w', perform_migration fuel m w = Some (r, w').
Proof.
  intros Hn Hf. destruct (Fs.exists_ (disk w) (source m)) eqn:Hex;
    [|rewrite perform_migration_not_found by done; eauto].
  rewrite perform_migration_found by done.
  destruct (ensure_bounded m (Fs.height (disk w))
              (logged w "INF" "Migration process initiated.") Hn
              (bounded_below_height _ _)) as ([[]|e] & w1 & He & Hb1);
    [|eexists _, _; by apply bind_Raise].
  rewrite (bind_Ret _ _ _ _ _ He).
  destruct (run_copy_ends fuel m _ w1 Hn Hf Hb1) as ([[]|e] & w2 & Hc);
    [|eexists _, _; by apply bind_Raise].
  rewrite (bind_Ret _ _ _ _ _ Hc).
  assert (∃ w3, match shortcut m with
                | Some s => MigrationTask.run fuel (shortcut_task s)
                | None => mret tt
                end w2 = Some (Ret tt, w3)) as [w3 Hs].
  { destruct (shortcut m) as [s|]; [|by eexists].
    destruct (delete_task_completes fuel "Delete Shortcut"
                [DeleteOperation.mk s false] w2) as [w3 H3]. eauto. }
  rewrite (bind_Ret _ _ _ _ _ Hs).
  destruct (delete_task_completes fuel "Remove Old Installation"
              [DeleteOperation.mk (source m) true] w3) as [w4 H4].
  rewrite (bind_Ret _ _ _ _ _ H4), info_spec. eauto.
Qed.

(** X17.  When the destination does not lie at or below the source, a
    migration ends, given a depth budget above the height of the tree; and
    if it ends with an exception it has removed nothing: the exception is
    one of [mkdir]'s, it was raised before any delete ran, and every entry
    that existed before still exists with the same kind. *)
Theorem migration_abort_removes_nothing (fuel : nat) (m : DrakensangMigrator.t)
    (w : world) :
  ¬ source m `prefix_of` destination m →
  (Fs.height (disk w) < fuel)%nat →
  ∃ r w', perform_migration fuel m w = Some (r, w') ∧
          ∀ e, r = Raise e → mkdir_error e ∧ grows (disk w) (disk w').
Proof.
  intros Hn Hf. destruct (migration_ends fuel m w Hn Hf) as (r & w' & Hrun).
  exists r, w'. split; [done|]. intros e ->. by apply (migration_raise_grows fuel m).
Qed.

Lemma migration_abort_removes_nothing_witness :
  ∃ r w', perform_migration 3 (mk ["s"] ["d"] None) blocked_world = Some (r, w') ∧
          ∀ e, r = Raise e → mkdir_error e ∧ grows (disk blocked_world) (disk w').
Proof.
  apply (migration_abort_removes_nothing 3 (mk ["s"] ["d"] None) blocked_world).
  - intros [k Hk]. discriminate Hk.
  - vm_compute. lia.
Defined.



(** X19.  A shortcut that is a file is gone after a migration that found
    its source and returned, whatever the copy did in between. *)
Theorem shortcut_file_removed (fuel : nat) (m : DrakensangMigrator.t) (s : path)
    (data : list byte) (w w' : world) :
  Fs.exists_ (disk w) (source m) = true →
  shortcut m = Some s →
  Fs.stat (disk w) s = Some (EFile data) →
  perform_migration fuel m w = Some (Ret tt, w') →
  Fs.exists_ (disk w') s = false.
Proof.
  intros Hex Hs Hfile Hrun.
  assert (s ≠ []) as Hne by (by intros ->).
  rewrite perform_migration_found in Hrun by done. rewrite Hs in Hrun.
  apply bind_Ret_inv in Hrun as ([] & w0 & Hens & Hrun).
  apply bind_Ret_inv in Hrun as ([] & w1 & Hcopy & Hrun).
  apply bind_Ret_inv in Hrun as ([] & w2 & Hsc & Hrun).
  apply bind_Ret_inv in Hrun as ([] & w3 & Hrm & Hrun).
  apply (ensure_grows m) in Hens. apply (run_grows_copy fuel m) in Hcopy.
  destruct (grows_file _ _ _ _ Hens Hfile) as [d0 Hf0].
  destruct (grows_file _ _ _ _ Hcopy Hf0) as [d1 Hf1].
  assert (disk w2 !! s = None) as Hgone.
  { revert Hsc. unfold MigrationTask.run.
    rewrite (bind_Ret _ _ _ _ _ (info_spec _ w1)). cbn [MigrationTask.operations shortcut_task].
    intros ([] & w2a & Hdel & Hend)%bind_Ret_inv.
    rewrite for_each_singleton in Hdel. cbn [Operation_execute] in Hdel.
    rewrite delete_file in Hdel.
    - injection Hdel as <-. rewrite info_spec in Hend. injection Hend as <-.
      simpl. apply lookup_delete_eq.
    - unfold Fs.exists_. simpl. by rewrite Hf1.
    - unfold Fs.is_dir. simpl. by rewrite Hf1. }
  apply (run_shrinks_remove fuel m) in Hrm.
  rewrite info_spec in Hrun. injection Hrun as <-. simpl.
  unfold Fs.exists_. rewrite stat_lookup by done.
  destruct (disk w3 !! s) as [e|] eqn:H3; [|done].
  apply Hrm in H3. congruence.
Qed.

Lemma shortcut_file_removed_witness :
  Fs.exists_ (disk scenario_after) ["tmp"; "shortcut.lnk"] = false.
Proof.
  apply (shortcut_file_removed 3 scenario_migrator ["tmp"; "shortcut.lnk"] [x4c]
           scenario_world scenario_after).
  - reflexivity.
  - reflexivity.
  - reflexivity.
  - vm_compute. reflexivity.
Defined.

Lemma migration_stays_dir fuel m (q : path) :
  ¬ source m `prefix_of` q →
  steps (on_disk (stays_dir q)) (perform_migration fuel m).
Proof.
  intros Hq.
  assert (∀ w1 w2, on_disk grows w1 w2 → on_disk (stays_dir q) w1 w2) as Hg.
  { intros w1 w2 H Hd. by apply (grows_keeps_dirs _ _ H). }
  apply migration_steps; [apply _|apply steps_log; apply _|..].
  - eapply steps_weaken; [exact Hg|apply ensure_grows].
  - intros t [->|[(s & Hs & ->)| ->]]%tasks_elem.
    + eapply steps_weaken; [exact Hg|apply run_grows_copy].
    + eapply steps_weaken; [|apply run_keeps_dirs_shortcut]. intros w1 w2 H Hd.
      by apply H.
    + eapply steps_weaken; [|apply run_outside_remove]. intros w1 w2 H Hd.
      unfold on_disk in H. by rewrite (H q Hq).
Qed.

(** X20.  A migration removes no directory outside the source tree.  In
    particular a shortcut that is a folder survives it: the shortcut is
    deleted without [recursive], and [unlink] does not remove
    directories. *)
Theorem migration_spares_directories (fuel : nat) (m : DrakensangMigrator.t)
    (w w' : world) (r : outcome unit) (q : path) :
  perform_migration fuel m w = Some (r, w') →
  ¬ source m `prefix_of` q →
  disk w !! q = Some EDir →
  disk w' !! q = Some EDir.
Proof. intros H Hq. by apply (migration_stays_dir fuel m q Hq w r w'). Qed.

Lemma migration_spares_directories_witness :
  disk folder_shortcut_after !! ["menu"] = Some EDir.
Proof.
  apply (migration_spares_directories 2 (mk ["old"] ["new"] (Some ["menu"]))
           folder_shortcut_world folder_shortcut_after (Ret tt) ["menu"]).
  - vm_compute. reflexivity.
  - intros [k Hk]. discriminate.
  - reflexivity.
Defined.

(** X21.  After a migration that found its source and returned, the
    destination is a directory, provided it does not lie at or below the
    source (which the last task removes). *)
Theorem destination_is_directory (fuel : nat) (m : DrakensangMigrator.t) (w w' : world) :
  Fs.exists_ (disk w) (source m) = true →
  ¬ source m `prefix_of` destination m →
  perform_migration fuel m w = Some (Ret tt, w') →
  Fs.is_dir (disk w') (destination m) = true.
Proof.
  intros Hex Hsd Hrun.
  destruct (decide (destination m = [])) as [Hnil|Hne]; [by rewrite Hnil|].
  rewrite perform_migration_found in Hrun by done.
  apply bind_Ret_inv in Hrun as ([] & w0 & Hens & Hrun).
  apply bind_Ret_inv in Hrun as ([] & w1 & Hcopy & Hrun).
  apply bind_Ret_inv in Hrun as ([] & w2 & Hsc & Hrun).
  apply bind_Ret_inv in Hrun as ([] & w3 & Hrm & Hrun).
  apply (ensure_grows m) in Hens.
  assert (Fs.is_dir (disk w1) (destination m) = true) as Hd1.
  { revert Hcopy. unfold MigrationTask.run.
    rewrite (bind_Ret _ _ _ _ _ (info_spec _ w0)). cbn [MigrationTask.operations copy_task].
    intros ([] & w1a & Hexec & Hend)%bind_Ret_inv.
    rewrite for_each_singleton in Hexec. cbn [Operation_execute] in Hexec.
    apply copy_Ret_dst_dir in Hexec.
    - rewrite info_spec in Hend. by injection Hend as <-.
    - simpl. by apply (grows_exists _ _ _ Hens). }
  apply is_dir_stat in Hd1. rewrite stat_lookup in Hd1 by done.
  assert (disk w2 !! destination m = Some EDir) as Hd2.
  { destruct (shortcut m) as [s|].
    - by apply (run_keeps_dirs_shortcut fuel s _ _ _ Hsc).
    - by injection Hsc as <-. }
  apply (run_outside_remove fuel m) in Hrm. unfold on_disk in Hrm.
  rewrite info_spec in Hrun. injection Hrun as <-. simpl.
  apply is_dir_stat. rewrite stat_lookup by done. by rewrite (Hrm _ Hsd).
Qed.

Lemma destination_is_directory_witness :
  Fs.is_dir (disk scenario_after) ["tmp"; "dst"] = true.
Proof.
  apply (destination_is_directory 3 scenario_migrator scenario_world scenario_after).
  - reflexivity.
  - intros [k Hk]. discriminate.
  - vm_compute. reflexivity.
Defined.

End migration_extras.

(** X22.  A migration keeps the file system well formed: however it ends,
    no entry is left without the directory that holds it. *)
Theorem migration_keeps_well_formed (fuel : nat) (m : DrakensangMigrator.t) (w w' : world)
    (r : outcome unit) :
  DrakensangMigrator.perform_migration fuel m w = Some (r, w') →
  Fs.wf (disk w) →
  Fs.wf (disk w').
Proof. intros H Hwf. by apply (keeps_wf_migration fuel m w r w'). Qed.

Lemma migration_keeps_well_formed_witness : Fs.wf (disk scenario_after).
Proof.
  apply (migration_keeps_well_formed 3 scenario_migrator scenario_world scenario_after (Ret tt)).
  - vm_compute. reflexivity.
  - apply wfb_sound. vm_compute. reflexivity.
Defined.
